(** * Keyword expansion pipeline of [scripts/expand_keywords.py]

    A shallow embedding of the response parser ([expand_keywords], from the
    point where the model's reply is in hand) and of the order-preserving
    merger ([deduplicate], and its use in [main]), with the properties the
    specification states about them.

    Python values are modelled as follows.
    - A [str] is the list of its Unicode code points ([N]).
    - [str.strip], [str.lower], [re.sub], [re.findall] and [json.loads] are
      the library functions the script calls; they are embedded here after
      CPython 3.11 (Unicode 14.0.0), closely enough to run the script's
      examples: whitespace is the set [str.isspace] accepts, lowercasing is
      the full Unicode mapping with the final-sigma rule, and the JSON
      decoder is the recursive-descent scanner of the [json] module.
    - Exceptions are values of type [exn]; a computation that may raise has
      type [res A]. *)

From stdpp Require Import base numbers list strings gmap.

Local Open Scope N_scope.

(** ** Strings *)

Abbreviation str := (list N).

(** Text written in this file uses the apostrophe for the double quotation
    mark, so [lit] reads an ASCII literal and [litq] moreover turns each
    apostrophe (39) into a quotation mark (34). *)
Fixpoint lit (s : string) : str :=
  match s with
  | EmptyString => []
  | String a rest => Ascii.N_of_ascii a :: lit rest
  end.

Definition litq (s : string) : str :=
  (λ c, if c =? 39 then 34 else c) <$> lit s.

(** *** Whitespace and [str.strip] *)

(** The code points for which [str.isspace] holds; [str.strip] and the
    regular expression class [\s] use the same set. *)
Definition isspace (c : N) : bool :=
  ((0x09 <=? c) && (c <=? 0x0D)) || ((0x1C <=? c) && (c <=? 0x20))
  || (c =? 0x85) || (c =? 0xA0) || (c =? 0x1680)
  || ((0x2000 <=? c) && (c <=? 0x200A))
  || (c =? 0x2028) || (c =? 0x2029) || (c =? 0x202F) || (c =? 0x205F)
  || (c =? 0x3000).

Fixpoint drop_while {A} (p : A → bool) (l : list A) : list A :=
  match l with
  | [] => []
  | x :: rest => if p x then drop_while p rest else l
  end.

Definition lstrip (s : str) : str := drop_while isspace s.
Definition rstrip (s : str) : str := reverse (drop_while isspace (reverse s)).
Definition strip (s : str) : str := lstrip (rstrip s).

(** *** [str.lower] *)

(** Simple lowercase mappings, as runs [(first, count, step, target)]: the
    code point [first + i * step] maps to [target + i * step] for
    [i < count]. *)
Definition lower_runs : list (N * N * N * N) := [
  (0x41, 26, 1, 0x61); (0xC0, 23, 1, 0xE0); (0xD8, 7, 1, 0xF8); (0x100, 24, 2, 0x101);
  (0x132, 3, 2, 0x133); (0x139, 8, 2, 0x13A); (0x14A, 23, 2, 0x14B); (0x178, 1, 1, 0xFF);
  (0x179, 3, 2, 0x17A); (0x181, 1, 1, 0x253); (0x182, 2, 2, 0x183); (0x186, 1, 1, 0x254);
  (0x187, 1, 1, 0x188); (0x189, 2, 1, 0x256); (0x18B, 1, 1, 0x18C); (0x18E, 1, 1, 0x1DD);
  (0x18F, 1, 1, 0x259); (0x190, 1, 1, 0x25B); (0x191, 1, 1, 0x192); (0x193, 1, 1, 0x260);
  (0x194, 1, 1, 0x263); (0x196, 1, 1, 0x269); (0x197, 1, 1, 0x268); (0x198, 1, 1, 0x199);
  (0x19C, 1, 1, 0x26F); (0x19D, 1, 1, 0x272); (0x19F, 1, 1, 0x275); (0x1A0, 3, 2, 0x1A1);
  (0x1A6, 1, 1, 0x280); (0x1A7, 1, 1, 0x1A8); (0x1A9, 1, 1, 0x283); (0x1AC, 1, 1, 0x1AD);
  (0x1AE, 1, 1, 0x288); (0x1AF, 1, 1, 0x1B0); (0x1B1, 2, 1, 0x28A); (0x1B3, 2, 2, 0x1B4);
  (0x1B7, 1, 1, 0x292); (0x1B8, 1, 1, 0x1B9); (0x1BC, 1, 1, 0x1BD); (0x1C4, 1, 1, 0x1C6);
  (0x1C5, 1, 1, 0x1C6); (0x1C7, 1, 1, 0x1C9); (0x1C8, 1, 1, 0x1C9); (0x1CA, 1, 1, 0x1CC);
  (0x1CB, 9, 2, 0x1CC); (0x1DE, 9, 2, 0x1DF); (0x1F1, 1, 1, 0x1F3); (0x1F2, 2, 2, 0x1F3);
  (0x1F6, 1, 1, 0x195); (0x1F7, 1, 1, 0x1BF); (0x1F8, 20, 2, 0x1F9); (0x220, 1, 1, 0x19E);
  (0x222, 9, 2, 0x223); (0x23A, 1, 1, 0x2C65); (0x23B, 1, 1, 0x23C); (0x23D, 1, 1, 0x19A);
  (0x23E, 1, 1, 0x2C66); (0x241, 1, 1, 0x242); (0x243, 1, 1, 0x180); (0x244, 1, 1, 0x289);
  (0x245, 1, 1, 0x28C); (0x246, 5, 2, 0x247); (0x370, 2, 2, 0x371); (0x376, 1, 1, 0x377);
  (0x37F, 1, 1, 0x3F3); (0x386, 1, 1, 0x3AC); (0x388, 3, 1, 0x3AD); (0x38C, 1, 1, 0x3CC);
  (0x38E, 2, 1, 0x3CD); (0x391, 17, 1, 0x3B1); (0x3A3, 9, 1, 0x3C3); (0x3CF, 1, 1, 0x3D7);
  (0x3D8, 12, 2, 0x3D9); (0x3F4, 1, 1, 0x3B8); (0x3F7, 1, 1, 0x3F8); (0x3F9, 1, 1, 0x3F2);
  (0x3FA, 1, 1, 0x3FB); (0x3FD, 3, 1, 0x37B); (0x400, 16, 1, 0x450); (0x410, 32, 1, 0x430);
  (0x460, 17, 2, 0x461); (0x48A, 27, 2, 0x48B); (0x4C0, 1, 1, 0x4CF); (0x4C1, 7, 2, 0x4C2);
  (0x4D0, 48, 2, 0x4D1); (0x531, 38, 1, 0x561); (0x10A0, 38, 1, 0x2D00); (0x10C7, 1, 1, 0x2D27);
  (0x10CD, 1, 1, 0x2D2D); (0x13A0, 80, 1, 0xAB70); (0x13F0, 6, 1, 0x13F8); (0x1C90, 43, 1, 0x10D0);
  (0x1CBD, 3, 1, 0x10FD); (0x1E00, 75, 2, 0x1E01); (0x1E9E, 1, 1, 0xDF); (0x1EA0, 48, 2, 0x1EA1);
  (0x1F08, 8, 1, 0x1F00); (0x1F18, 6, 1, 0x1F10); (0x1F28, 8, 1, 0x1F20); (0x1F38, 8, 1, 0x1F30);
  (0x1F48, 6, 1, 0x1F40); (0x1F59, 4, 2, 0x1F51); (0x1F68, 8, 1, 0x1F60); (0x1F88, 8, 1, 0x1F80);
  (0x1F98, 8, 1, 0x1F90); (0x1FA8, 8, 1, 0x1FA0); (0x1FB8, 2, 1, 0x1FB0); (0x1FBA, 2, 1, 0x1F70);
  (0x1FBC, 1, 1, 0x1FB3); (0x1FC8, 4, 1, 0x1F72); (0x1FCC, 1, 1, 0x1FC3); (0x1FD8, 2, 1, 0x1FD0);
  (0x1FDA, 2, 1, 0x1F76); (0x1FE8, 2, 1, 0x1FE0); (0x1FEA, 2, 1, 0x1F7A); (0x1FEC, 1, 1, 0x1FE5);
  (0x1FF8, 2, 1, 0x1F78); (0x1FFA, 2, 1, 0x1F7C); (0x1FFC, 1, 1, 0x1FF3); (0x2126, 1, 1, 0x3C9);
  (0x212A, 1, 1, 0x6B); (0x212B, 1, 1, 0xE5); (0x2132, 1, 1, 0x214E); (0x2160, 16, 1, 0x2170);
  (0x2183, 1, 1, 0x2184); (0x24B6, 26, 1, 0x24D0); (0x2C00, 48, 1, 0x2C30); (0x2C60, 1, 1, 0x2C61);
  (0x2C62, 1, 1, 0x26B); (0x2C63, 1, 1, 0x1D7D); (0x2C64, 1, 1, 0x27D); (0x2C67, 3, 2, 0x2C68);
  (0x2C6D, 1, 1, 0x251); (0x2C6E, 1, 1, 0x271); (0x2C6F, 1, 1, 0x250); (0x2C70, 1, 1, 0x252);
  (0x2C72, 1, 1, 0x2C73); (0x2C75, 1, 1, 0x2C76); (0x2C7E, 2, 1, 0x23F); (0x2C80, 50, 2, 0x2C81);
  (0x2CEB, 2, 2, 0x2CEC); (0x2CF2, 1, 1, 0x2CF3); (0xA640, 23, 2, 0xA641); (0xA680, 14, 2, 0xA681);
  (0xA722, 7, 2, 0xA723); (0xA732, 31, 2, 0xA733); (0xA779, 2, 2, 0xA77A); (0xA77D, 1, 1, 0x1D79);
  (0xA77E, 5, 2, 0xA77F); (0xA78B, 1, 1, 0xA78C); (0xA78D, 1, 1, 0x265); (0xA790, 2, 2, 0xA791);
  (0xA796, 10, 2, 0xA797); (0xA7AA, 1, 1, 0x266); (0xA7AB, 1, 1, 0x25C); (0xA7AC, 1, 1, 0x261);
  (0xA7AD, 1, 1, 0x26C); (0xA7AE, 1, 1, 0x26A); (0xA7B0, 1, 1, 0x29E); (0xA7B1, 1, 1, 0x287);
  (0xA7B2, 1, 1, 0x29D); (0xA7B3, 1, 1, 0xAB53); (0xA7B4, 8, 2, 0xA7B5); (0xA7C4, 1, 1, 0xA794);
  (0xA7C5, 1, 1, 0x282); (0xA7C6, 1, 1, 0x1D8E); (0xA7C7, 2, 2, 0xA7C8); (0xA7D0, 1, 1, 0xA7D1);
  (0xA7D6, 2, 2, 0xA7D7); (0xA7F5, 1, 1, 0xA7F6); (0xFF21, 26, 1, 0xFF41); (0x10400, 40, 1, 0x10428);
  (0x104B0, 36, 1, 0x104D8); (0x10570, 19, 2, 0x10597); (0x10571, 5, 2, 0x10598); (0x1057D, 7, 2, 0x105A4);
  (0x1058D, 3, 2, 0x105B4); (0x10595, 1, 1, 0x105BC); (0x10C80, 51, 1, 0x10CC0); (0x118A0, 32, 1, 0x118C0);
  (0x16E40, 32, 1, 0x16E60); (0x1E900, 34, 1, 0x1E922)
]%N.

(** The code points with the Case_Ignorable property, as inclusive ranges. *)
Definition case_ignorable_ranges : list (N * N) := [
  (0x27, 0x27); (0x2E, 0x2E); (0x3A, 0x3A); (0x5E, 0x5E); (0x60, 0x60);
  (0xA8, 0xA8); (0xAD, 0xAD); (0xAF, 0xAF); (0xB4, 0xB4); (0xB7, 0xB8);
  (0x2B0, 0x36F); (0x374, 0x375); (0x37A, 0x37A); (0x384, 0x385); (0x387, 0x387);
  (0x483, 0x489); (0x559, 0x559); (0x55F, 0x55F); (0x591, 0x5BD); (0x5BF, 0x5BF);
  (0x5C1, 0x5C2); (0x5C4, 0x5C5); (0x5C7, 0x5C7); (0x5F4, 0x5F4); (0x600, 0x605);
  (0x610, 0x61A); (0x61C, 0x61C); (0x640, 0x640); (0x64B, 0x65F); (0x670, 0x670);
  (0x6D6, 0x6DD); (0x6DF, 0x6E8); (0x6EA, 0x6ED); (0x70F, 0x70F); (0x711, 0x711);
  (0x730, 0x74A); (0x7A6, 0x7B0); (0x7EB, 0x7F5); (0x7FA, 0x7FA); (0x7FD, 0x7FD);
  (0x816, 0x82D); (0x859, 0x85B); (0x888, 0x888); (0x890, 0x891); (0x898, 0x89F);
  (0x8C9, 0x902); (0x93A, 0x93A); (0x93C, 0x93C); (0x941, 0x948); (0x94D, 0x94D);
  (0x951, 0x957); (0x962, 0x963); (0x971, 0x971); (0x981, 0x981); (0x9BC, 0x9BC);
  (0x9C1, 0x9C4); (0x9CD, 0x9CD); (0x9E2, 0x9E3); (0x9FE, 0x9FE); (0xA01, 0xA02);
  (0xA3C, 0xA3C); (0xA41, 0xA42); (0xA47, 0xA48); (0xA4B, 0xA4D); (0xA51, 0xA51);
  (0xA70, 0xA71); (0xA75, 0xA75); (0xA81, 0xA82); (0xABC, 0xABC); (0xAC1, 0xAC5);
  (0xAC7, 0xAC8); (0xACD, 0xACD); (0xAE2, 0xAE3); (0xAFA, 0xAFF); (0xB01, 0xB01);
  (0xB3C, 0xB3C); (0xB3F, 0xB3F); (0xB41, 0xB44); (0xB4D, 0xB4D); (0xB55, 0xB56);
  (0xB62, 0xB63); (0xB82, 0xB82); (0xBC0, 0xBC0); (0xBCD, 0xBCD); (0xC00, 0xC00);
  (0xC04, 0xC04); (0xC3C, 0xC3C); (0xC3E, 0xC40); (0xC46, 0xC48); (0xC4A, 0xC4D);
  (0xC55, 0xC56); (0xC62, 0xC63); (0xC81, 0xC81); (0xCBC, 0xCBC); (0xCBF, 0xCBF);
  (0xCC6, 0xCC6); (0xCCC, 0xCCD); (0xCE2, 0xCE3); (0xD00, 0xD01); (0xD3B, 0xD3C);
  (0xD41, 0xD44); (0xD4D, 0xD4D); (0xD62, 0xD63); (0xD81, 0xD81); (0xDCA, 0xDCA);
  (0xDD2, 0xDD4); (0xDD6, 0xDD6); (0xE31, 0xE31); (0xE34, 0xE3A); (0xE46, 0xE4E);
  (0xEB1, 0xEB1); (0xEB4, 0xEBC); (0xEC6, 0xEC6); (0xEC8, 0xECD); (0xF18, 0xF19);
  (0xF35, 0xF35); (0xF37, 0xF37); (0xF39, 0xF39); (0xF71, 0xF7E); (0xF80, 0xF84);
  (0xF86, 0xF87); (0xF8D, 0xF97); (0xF99, 0xFBC); (0xFC6, 0xFC6); (0x102D, 0x1030);
  (0x1032, 0x1037); (0x1039, 0x103A); (0x103D, 0x103E); (0x1058, 0x1059); (0x105E, 0x1060);
  (0x1071, 0x1074); (0x1082, 0x1082); (0x1085, 0x1086); (0x108D, 0x108D); (0x109D, 0x109D);
  (0x10FC, 0x10FC); (0x135D, 0x135F); (0x1712, 0x1714); (0x1732, 0x1733); (0x1752, 0x1753);
  (0x1772, 0x1773); (0x17B4, 0x17B5); (0x17B7, 0x17BD); (0x17C6, 0x17C6); (0x17C9, 0x17D3);
  (0x17D7, 0x17D7); (0x17DD, 0x17DD); (0x180B, 0x180F); (0x1843, 0x1843); (0x1885, 0x1886);
  (0x18A9, 0x18A9); (0x1920, 0x1922); (0x1927, 0x1928); (0x1932, 0x1932); (0x1939, 0x193B);
  (0x1A17, 0x1A18); (0x1A1B, 0x1A1B); (0x1A56, 0x1A56); (0x1A58, 0x1A5E); (0x1A60, 0x1A60);
  (0x1A62, 0x1A62); (0x1A65, 0x1A6C); (0x1A73, 0x1A7C); (0x1A7F, 0x1A7F); (0x1AA7, 0x1AA7);
  (0x1AB0, 0x1ACE); (0x1B00, 0x1B03); (0x1B34, 0x1B34); (0x1B36, 0x1B3A); (0x1B3C, 0x1B3C);
  (0x1B42, 0x1B42); (0x1B6B, 0x1B73); (0x1B80, 0x1B81); (0x1BA2, 0x1BA5); (0x1BA8, 0x1BA9);
  (0x1BAB, 0x1BAD); (0x1BE6, 0x1BE6); (0x1BE8, 0x1BE9); (0x1BED, 0x1BED); (0x1BEF, 0x1BF1);
  (0x1C2C, 0x1C33); (0x1C36, 0x1C37); (0x1C78, 0x1C7D); (0x1CD0, 0x1CD2); (0x1CD4, 0x1CE0);
  (0x1CE2, 0x1CE8); (0x1CED, 0x1CED); (0x1CF4, 0x1CF4); (0x1CF8, 0x1CF9); (0x1D2C, 0x1D6A);
  (0x1D78, 0x1D78); (0x1D9B, 0x1DFF); (0x1FBD, 0x1FBD); (0x1FBF, 0x1FC1); (0x1FCD, 0x1FCF);
  (0x1FDD, 0x1FDF); (0x1FED, 0x1FEF); (0x1FFD, 0x1FFE); (0x200B, 0x200F); (0x2018, 0x2019);
  (0x2024, 0x2024); (0x2027, 0x2027); (0x202A, 0x202E); (0x2060, 0x2064); (0x2066, 0x206F);
  (0x2071, 0x2071); (0x207F, 0x207F); (0x2090, 0x209C); (0x20D0, 0x20F0); (0x2C7C, 0x2C7D);
  (0x2CEF, 0x2CF1); (0x2D6F, 0x2D6F); (0x2D7F, 0x2D7F); (0x2DE0, 0x2DFF); (0x2E2F, 0x2E2F);
  (0x3005, 0x3005); (0x302A, 0x302D); (0x3031, 0x3035); (0x303B, 0x303B); (0x3099, 0x309E);
  (0x30FC, 0x30FE); (0xA015, 0xA015); (0xA4F8, 0xA4FD); (0xA60C, 0xA60C); (0xA66F, 0xA672);
  (0xA674, 0xA67D); (0xA67F, 0xA67F); (0xA69C, 0xA69F); (0xA6F0, 0xA6F1); (0xA700, 0xA721);
  (0xA770, 0xA770); (0xA788, 0xA78A); (0xA7F2, 0xA7F4); (0xA7F8, 0xA7F9); (0xA802, 0xA802);
  (0xA806, 0xA806); (0xA80B, 0xA80B); (0xA825, 0xA826); (0xA82C, 0xA82C); (0xA8C4, 0xA8C5);
  (0xA8E0, 0xA8F1); (0xA8FF, 0xA8FF); (0xA926, 0xA92D); (0xA947, 0xA951); (0xA980, 0xA982);
  (0xA9B3, 0xA9B3); (0xA9B6, 0xA9B9); (0xA9BC, 0xA9BD); (0xA9CF, 0xA9CF); (0xA9E5, 0xA9E6);
  (0xAA29, 0xAA2E); (0xAA31, 0xAA32); (0xAA35, 0xAA36); (0xAA43, 0xAA43); (0xAA4C, 0xAA4C);
  (0xAA70, 0xAA70); (0xAA7C, 0xAA7C); (0xAAB0, 0xAAB0); (0xAAB2, 0xAAB4); (0xAAB7, 0xAAB8);
  (0xAABE, 0xAABF); (0xAAC1, 0xAAC1); (0xAADD, 0xAADD); (0xAAEC, 0xAAED); (0xAAF3, 0xAAF4);
  (0xAAF6, 0xAAF6); (0xAB5B, 0xAB5F); (0xAB69, 0xAB6B); (0xABE5, 0xABE5); (0xABE8, 0xABE8);
  (0xABED, 0xABED); (0xFB1E, 0xFB1E); (0xFBB2, 0xFBC2); (0xFE00, 0xFE0F); (0xFE13, 0xFE13);
  (0xFE20, 0xFE2F); (0xFE52, 0xFE52); (0xFE55, 0xFE55); (0xFEFF, 0xFEFF); (0xFF07, 0xFF07);
  (0xFF0E, 0xFF0E); (0xFF1A, 0xFF1A); (0xFF3E, 0xFF3E); (0xFF40, 0xFF40); (0xFF70, 0xFF70);
  (0xFF9E, 0xFF9F); (0xFFE3, 0xFFE3); (0xFFF9, 0xFFFB); (0x101FD, 0x101FD); (0x102E0, 0x102E0);
  (0x10376, 0x1037A); (0x10780, 0x10785); (0x10787, 0x107B0); (0x107B2, 0x107BA); (0x10A01, 0x10A03);
  (0x10A05, 0x10A06); (0x10A0C, 0x10A0F); (0x10A38, 0x10A3A); (0x10A3F, 0x10A3F); (0x10AE5, 0x10AE6);
  (0x10D24, 0x10D27); (0x10EAB, 0x10EAC); (0x10F46, 0x10F50); (0x10F82, 0x10F85); (0x11001, 0x11001);
  (0x11038, 0x11046); (0x11070, 0x11070); (0x11073, 0x11074); (0x1107F, 0x11081); (0x110B3, 0x110B6);
  (0x110B9, 0x110BA); (0x110BD, 0x110BD); (0x110C2, 0x110C2); (0x110CD, 0x110CD); (0x11100, 0x11102);
  (0x11127, 0x1112B); (0x1112D, 0x11134); (0x11173, 0x11173); (0x11180, 0x11181); (0x111B6, 0x111BE);
  (0x111C9, 0x111CC); (0x111CF, 0x111CF); (0x1122F, 0x11231); (0x11234, 0x11234); (0x11236, 0x11237);
  (0x1123E, 0x1123E); (0x112DF, 0x112DF); (0x112E3, 0x112EA); (0x11300, 0x11301); (0x1133B, 0x1133C);
  (0x11340, 0x11340); (0x11366, 0x1136C); (0x11370, 0x11374); (0x11438, 0x1143F); (0x11442, 0x11444);
  (0x11446, 0x11446); (0x1145E, 0x1145E); (0x114B3, 0x114B8); (0x114BA, 0x114BA); (0x114BF, 0x114C0);
  (0x114C2, 0x114C3); (0x115B2, 0x115B5); (0x115BC, 0x115BD); (0x115BF, 0x115C0); (0x115DC, 0x115DD);
  (0x11633, 0x1163A); (0x1163D, 0x1163D); (0x1163F, 0x11640); (0x116AB, 0x116AB); (0x116AD, 0x116AD);
  (0x116B0, 0x116B5); (0x116B7, 0x116B7); (0x1171D, 0x1171F); (0x11722, 0x11725); (0x11727, 0x1172B);
  (0x1182F, 0x11837); (0x11839, 0x1183A); (0x1193B, 0x1193C); (0x1193E, 0x1193E); (0x11943, 0x11943);
  (0x119D4, 0x119D7); (0x119DA, 0x119DB); (0x119E0, 0x119E0); (0x11A01, 0x11A0A); (0x11A33, 0x11A38);
  (0x11A3B, 0x11A3E); (0x11A47, 0x11A47); (0x11A51, 0x11A56); (0x11A59, 0x11A5B); (0x11A8A, 0x11A96);
  (0x11A98, 0x11A99); (0x11C30, 0x11C36); (0x11C38, 0x11C3D); (0x11C3F, 0x11C3F); (0x11C92, 0x11CA7);
  (0x11CAA, 0x11CB0); (0x11CB2, 0x11CB3); (0x11CB5, 0x11CB6); (0x11D31, 0x11D36); (0x11D3A, 0x11D3A);
  (0x11D3C, 0x11D3D); (0x11D3F, 0x11D45); (0x11D47, 0x11D47); (0x11D90, 0x11D91); (0x11D95, 0x11D95);
  (0x11D97, 0x11D97); (0x11EF3, 0x11EF4); (0x13430, 0x13438); (0x16AF0, 0x16AF4); (0x16B30, 0x16B36);
  (0x16B40, 0x16B43); (0x16F4F, 0x16F4F); (0x16F8F, 0x16F9F); (0x16FE0, 0x16FE1); (0x16FE3, 0x16FE4);
  (0x1AFF0, 0x1AFF3); (0x1AFF5, 0x1AFFB); (0x1AFFD, 0x1AFFE); (0x1BC9D, 0x1BC9E); (0x1BCA0, 0x1BCA3);
  (0x1CF00, 0x1CF2D); (0x1CF30, 0x1CF46); (0x1D167, 0x1D169); (0x1D173, 0x1D182); (0x1D185, 0x1D18B);
  (0x1D1AA, 0x1D1AD); (0x1D242, 0x1D244); (0x1DA00, 0x1DA36); (0x1DA3B, 0x1DA6C); (0x1DA75, 0x1DA75);
  (0x1DA84, 0x1DA84); (0x1DA9B, 0x1DA9F); (0x1DAA1, 0x1DAAF); (0x1E000, 0x1E006); (0x1E008, 0x1E018);
  (0x1E01B, 0x1E021); (0x1E023, 0x1E024); (0x1E026, 0x1E02A); (0x1E130, 0x1E13D); (0x1E2AE, 0x1E2AE);
  (0x1E2EC, 0x1E2EF); (0x1E8D0, 0x1E8D6); (0x1E944, 0x1E94B); (0x1F3FB, 0x1F3FF); (0xE0001, 0xE0001);
  (0xE0020, 0xE007F); (0xE0100, 0xE01EF)
]%N.

(** The code points with the Cased property, as inclusive ranges. *)
Definition cased_ranges : list (N * N) := [
  (0x41, 0x5A); (0x61, 0x7A); (0xAA, 0xAA); (0xB5, 0xB5); (0xBA, 0xBA);
  (0xC0, 0xD6); (0xD8, 0xF6); (0xF8, 0x1BA); (0x1BC, 0x1BF); (0x1C4, 0x293);
  (0x295, 0x2B8); (0x2C0, 0x2C1); (0x2E0, 0x2E4); (0x345, 0x345); (0x370, 0x373);
  (0x376, 0x377); (0x37A, 0x37D); (0x37F, 0x37F); (0x386, 0x386); (0x388, 0x38A);
  (0x38C, 0x38C); (0x38E, 0x3A1); (0x3A3, 0x3F5); (0x3F7, 0x481); (0x48A, 0x52F);
  (0x531, 0x556); (0x560, 0x588); (0x10A0, 0x10C5); (0x10C7, 0x10C7); (0x10CD, 0x10CD);
  (0x10D0, 0x10FA); (0x10FD, 0x10FF); (0x13A0, 0x13F5); (0x13F8, 0x13FD); (0x1C80, 0x1C88);
  (0x1C90, 0x1CBA); (0x1CBD, 0x1CBF); (0x1D00, 0x1DBF); (0x1E00, 0x1F15); (0x1F18, 0x1F1D);
  (0x1F20, 0x1F45); (0x1F48, 0x1F4D); (0x1F50, 0x1F57); (0x1F59, 0x1F59); (0x1F5B, 0x1F5B);
  (0x1F5D, 0x1F5D); (0x1F5F, 0x1F7D); (0x1F80, 0x1FB4); (0x1FB6, 0x1FBC); (0x1FBE, 0x1FBE);
  (0x1FC2, 0x1FC4); (0x1FC6, 0x1FCC); (0x1FD0, 0x1FD3); (0x1FD6, 0x1FDB); (0x1FE0, 0x1FEC);
  (0x1FF2, 0x1FF4); (0x1FF6, 0x1FFC); (0x2071, 0x2071); (0x207F, 0x207F); (0x2090, 0x209C);
  (0x2102, 0x2102); (0x2107, 0x2107); (0x210A, 0x2113); (0x2115, 0x2115); (0x2119, 0x211D);
  (0x2124, 0x2124); (0x2126, 0x2126); (0x2128, 0x2128); (0x212A, 0x212D); (0x212F, 0x2134);
  (0x2139, 0x2139); (0x213C, 0x213F); (0x2145, 0x2149); (0x214E, 0x214E); (0x2160, 0x217F);
  (0x2183, 0x2184); (0x24B6, 0x24E9); (0x2C00, 0x2CE4); (0x2CEB, 0x2CEE); (0x2CF2, 0x2CF3);
  (0x2D00, 0x2D25); (0x2D27, 0x2D27); (0x2D2D, 0x2D2D); (0xA640, 0xA66D); (0xA680, 0xA69D);
  (0xA722, 0xA787); (0xA78B, 0xA78E); (0xA790, 0xA7CA); (0xA7D0, 0xA7D1); (0xA7D3, 0xA7D3);
  (0xA7D5, 0xA7D9); (0xA7F5, 0xA7F6); (0xA7F8, 0xA7FA); (0xAB30, 0xAB5A); (0xAB5C, 0xAB68);
  (0xAB70, 0xABBF); (0xFB00, 0xFB06); (0xFB13, 0xFB17); (0xFF21, 0xFF3A); (0xFF41, 0xFF5A);
  (0x10400, 0x1044F); (0x104B0, 0x104D3); (0x104D8, 0x104FB); (0x10570, 0x1057A); (0x1057C, 0x1058A);
  (0x1058C, 0x10592); (0x10594, 0x10595); (0x10597, 0x105A1); (0x105A3, 0x105B1); (0x105B3, 0x105B9);
  (0x105BB, 0x105BC); (0x10780, 0x10780); (0x10783, 0x10785); (0x10787, 0x107B0); (0x107B2, 0x107BA);
  (0x10C80, 0x10CB2); (0x10CC0, 0x10CF2); (0x118A0, 0x118DF); (0x16E40, 0x16E7F); (0x1D400, 0x1D454);
  (0x1D456, 0x1D49C); (0x1D49E, 0x1D49F); (0x1D4A2, 0x1D4A2); (0x1D4A5, 0x1D4A6); (0x1D4A9, 0x1D4AC);
  (0x1D4AE, 0x1D4B9); (0x1D4BB, 0x1D4BB); (0x1D4BD, 0x1D4C3); (0x1D4C5, 0x1D505); (0x1D507, 0x1D50A);
  (0x1D50D, 0x1D514); (0x1D516, 0x1D51C); (0x1D51E, 0x1D539); (0x1D53B, 0x1D53E); (0x1D540, 0x1D544);
  (0x1D546, 0x1D546); (0x1D54A, 0x1D550); (0x1D552, 0x1D6A5); (0x1D6A8, 0x1D6C0); (0x1D6C2, 0x1D6DA);
  (0x1D6DC, 0x1D6FA); (0x1D6FC, 0x1D714); (0x1D716, 0x1D734); (0x1D736, 0x1D74E); (0x1D750, 0x1D76E);
  (0x1D770, 0x1D788); (0x1D78A, 0x1D7A8); (0x1D7AA, 0x1D7C2); (0x1D7C4, 0x1D7CB); (0x1DF00, 0x1DF09);
  (0x1DF0B, 0x1DF1E); (0x1E900, 0x1E943); (0x1F130, 0x1F149); (0x1F150, 0x1F169); (0x1F170, 0x1F189)
]%N.

(** The pairs a run stands for, and the table of all of them. *)
Definition expand_run (r : N * N * N * N) : list (N * N) :=
  let '(first, count, step, target) := r in
  (λ i, (first + N.of_nat i * step, target + N.of_nat i * step))
    <$> seq 0 (N.to_nat count).

Definition lower_table : list (N * N) :=
  Eval vm_compute in concat (expand_run <$> lower_runs).

Fixpoint assoc (c : N) (t : list (N * N)) : option N :=
  match t with
  | [] => None
  | (k, v) :: rest => if c =? k then Some v else assoc c rest
  end.

Definition in_ranges (c : N) (t : list (N * N)) : bool :=
  existsb (λ r, (r.1 <=? c) && (c <=? r.2)) t.

Definition is_case_ignorable (c : N) : bool := in_ranges c case_ignorable_ranges.
Definition is_cased (c : N) : bool := in_ranges c cased_ranges.

(** The full lowercase mapping of one code point: U+0130 is the only one
    that lowercases to two code points. *)
Definition to_lower_full (c : N) : str :=
  if c =? 0x130 then [0x69; 0x307]
  else match assoc c lower_table with
       | Some d => [d]
       | None => [c]
       end.

(** The first code point of [s] that is not case-ignorable. *)
Definition first_not_ignorable (s : str) : option N :=
  head (drop_while is_case_ignorable s).

(** U+03A3 is in final position when a cased letter precedes it and none
    follows it, case-ignorable code points being skipped on both sides. *)
Definition final_sigma (before_rev after : str) : bool :=
  match first_not_ignorable before_rev with
  | Some c =>
      is_cased c &&
      match first_not_ignorable after with
      | Some d => negb (is_cased d)
      | None => true
      end
  | None => false
  end.

Definition lower_char (before_rev : str) (c : N) (after : str) : str :=
  if c =? 0x3A3
  then [if final_sigma before_rev after then 0x3C2 else 0x3C3]
  else to_lower_full c.

Fixpoint lower_from (before_rev s : str) : str :=
  match s with
  | [] => []
  | c :: rest => lower_char before_rev c rest ++ lower_from (c :: before_rev) rest
  end.

Definition lower (s : str) : str := lower_from [] s.

Local Close Scope N_scope.

(** ** [deduplicate] and the merge of [main] *)

(** [kw.lower().strip()] *)
Definition normalize (kw : str) : str := strip (lower kw).

(** One iteration of the loop of [deduplicate] on the state
    [(seen, result)]. *)
Definition dedup_step (st : gset str * list str) (kw : str)
    : gset str * list str :=
  let '(seen, result) := st in
  let kw_lower := normalize kw in
  if bool_decide (kw_lower ≠ []) && bool_decide (kw_lower ∉ seen)
  then ({[kw_lower]} ∪ seen, result ++ [kw_lower])
  else (seen, result).

Definition deduplicate (keywords : list str) : list str :=
  (foldl dedup_step (∅, []) keywords).2.

(** [deduplicate(base + expanded)], as [main] combines the two lists. *)
Definition merge (base expanded : list str) : list str :=
  deduplicate (base ++ expanded).

(** The base keyword lists of [main]. *)
Definition daw_keywords : list str :=
  lit <$> [
    "track"; "clip"; "fx"; "volume"; "pan"; "mute"; "solo";
    "reaper"; "daw"; "create"; "delete"; "move"; "select";
    "color"; "rename"; "add"; "remove"; "enable"; "disable";
    "instrument"; "plugin"; "effect"; "compressor"; "reverb"; "eq";
    "mix"; "master"; "bus"; "send"; "return"
  ]%string.

Definition arranger_keywords : list str :=
  lit <$> [
    "chord"; "progression"; "melody"; "note"; "notes";
    "I"; "VI"; "IV"; "V"; "ii"; "iii"; "vii";
    "roman"; "scale"; "harmony"; "sequence"; "pattern";
    "major"; "minor"; "diminished"; "augmented";
    "triad"; "seventh"; "ninth";
    "arpeggio"; "bassline"; "riff"; "hook"; "groove"; "lick";
    "phrase"; "motif"; "ostinato"; "fill"; "break";
    "C"; "D"; "E"; "F"; "G"; "A"; "B";
    "sharp"; "flat"; "natural";
    "pentatonic"; "dorian"; "mixolydian";
    "sus2"; "sus4"; "add9"
  ]%string.

(** ** Exceptions *)

Inductive exn : Type :=
  | JSONDecodeError
  | RecursionError
  | ValueError
  | AttributeError
  | APIError.

Inductive res (A : Type) : Type :=
  | Ok (a : A)
  | Raise (e : exn).
Arguments Ok {A} a.
Arguments Raise {A} e.

(** ** Code points the parser looks for *)

Local Open Scope N_scope.

Definition ch (s : string) : N :=
  match s with
  | String a _ => Ascii.N_of_ascii a
  | EmptyString => 0
  end.

Definition quote : N := 34.
Definition backslash : N := 92.

Definition is_digit (c : N) : bool := (ch "0" <=? c) && (c <=? ch "9").

(** [s.startswith(p)], returning what follows the prefix. *)
Fixpoint strip_prefix (p s : str) : option str :=
  match p, s with
  | [], _ => Some s
  | a :: p', b :: s' => if a =? b then strip_prefix p' s' else None
  | _ :: _, [] => None
  end.

(** ** The regular expressions *)

(** [re.sub(fence + r'\s*', '', s)] for a literal, non-empty [fence]: every
    occurrence of the fence, found left to right, is removed together with
    the whitespace that follows it. The fuel is the length of the text. *)
Fixpoint remove_fence_loop (fuel : nat) (fence s : str) : str :=
  match fuel with
  | O => []
  | S fuel =>
      match s with
      | [] => []
      | c :: rest =>
          match strip_prefix fence s with
          | Some after => remove_fence_loop fuel fence (drop_while isspace after)
          | None => c :: remove_fence_loop fuel fence rest
          end
      end
  end.

Definition remove_fence (fence s : str) : str :=
  remove_fence_loop (length s) fence s.

(** [re.findall] for the pattern that captures one or more characters other
    than the quotation mark between two quotation marks: the non-empty runs
    of such characters that stand between two quotation marks, found left to
    right without overlap. [inside] is [Some body] once a quotation
    mark has been read and [body] collected after it. *)
Fixpoint findall_quoted_from (inside : option str) (s : str) : list str :=
  match s with
  | [] => []
  | c :: rest =>
      match inside with
      | None =>
          findall_quoted_from (if c =? quote then Some [] else None) rest
      | Some body =>
          if c =? quote then
            match body with
            | [] => findall_quoted_from (Some []) rest
            | _ :: _ => body :: findall_quoted_from None rest
            end
          else findall_quoted_from (Some (body ++ [c])) rest
      end
  end.

Definition findall_quoted (s : str) : list str := findall_quoted_from None s.

(** ** [json.loads] *)

(** The values [json.loads] builds. Numbers keep their lexeme, and an object
    keeps its pairs in the order read: the script only asks whether a value
    is a [list] and whether an element is a [str]. *)
#[warnings="-register-all"]
Inductive json : Type :=
  | JNull
  | JBool (b : bool)
  | JInt (lexeme : str)
  | JFloat (lexeme : str)
  | JStr (s : str)
  | JList (items : list json)
  | JDict (pairs : list (str * json)).

(** What the interpreter allows: how many nested containers the decoder may
    still enter before [RecursionError], and the longest integer literal
    [int] converts ([0]: no limit) before [ValueError]. The defaults are a
    recursion limit of 1000, a few levels of which are in use when the
    decoder starts, and 4300 digits. *)
Record limits : Type := {
  recursion_depth : nat;
  int_max_str_digits : nat;
}.

Definition default_limits : limits :=
  {| recursion_depth := 990; int_max_str_digits := 4300 |}.

Definition is_json_ws (c : N) : bool :=
  (c =? 0x20) || (c =? 0x09) || (c =? 0x0A) || (c =? 0x0D).

Definition skip_ws (s : str) : str := drop_while is_json_ws s.

Definition hex_digit (c : N) : option N :=
  if is_digit c then Some (c - ch "0")
  else if (ch "a" <=? c) && (c <=? ch "f") then Some (c - ch "a" + 10)
  else if (ch "A" <=? c) && (c <=? ch "F") then Some (c - ch "A" + 10)
  else None.

(** The four hexadecimal digits of a [\uXXXX] escape, and what follows. *)
Definition decode_uXXXX (s : str) : option (N * str) :=
  match s with
  | h1 :: h2 :: h3 :: h4 :: rest =>
      match hex_digit h1, hex_digit h2, hex_digit h3, hex_digit h4 with
      | Some d1, Some d2, Some d3, Some d4 =>
          Some (((d1 * 16 + d2) * 16 + d3) * 16 + d4, rest)
      | _, _, _, _ => None
      end
  | _ => None
  end.

Definition backslash_escape (c : N) : option N :=
  if c =? quote then Some quote
  else if c =? backslash then Some backslash
  else if c =? ch "/" then Some (ch "/")
  else if c =? ch "b" then Some 0x08
  else if c =? ch "f" then Some 0x0C
  else if c =? ch "n" then Some 0x0A
  else if c =? ch "r" then Some 0x0D
  else if c =? ch "t" then Some 0x09
  else None.

Definition is_high_surrogate (c : N) : bool := (0xD800 <=? c) && (c <=? 0xDBFF).
Definition is_low_surrogate (c : N) : bool := (0xDC00 <=? c) && (c <=? 0xDFFF).
Definition join_surrogates (hi lo : N) : N :=
  0x10000 + (N.lor (N.shiftl (hi - 0xD800) 10) (lo - 0xDC00)).

(** [scanstring] in strict mode, from the character after the opening
    quotation mark: the decoded string and the input after the closing
    quotation mark. The fuel is the length of the input. *)
Fixpoint scanstring_loop (fuel : nat) (s chunks : str) : res (str * str) :=
  match fuel with
  | O => Raise JSONDecodeError
  | S fuel =>
      match s with
      | [] => Raise JSONDecodeError
      | c :: rest =>
          if c =? quote then Ok (chunks, rest)
          else if c =? backslash then
            match rest with
            | [] => Raise JSONDecodeError
            | esc :: rest =>
                if esc =? ch "u" then
                  match decode_uXXXX rest with
                  | None => Raise JSONDecodeError
                  | Some (uni, rest) =>
                      if is_high_surrogate uni then
                        match strip_prefix [backslash; ch "u"] rest with
                        | Some rest2 =>
                            match decode_uXXXX rest2 with
                            | None => Raise JSONDecodeError
                            | Some (uni2, rest2) =>
                                if is_low_surrogate uni2
                                then scanstring_loop fuel rest2
                                       (chunks ++ [join_surrogates uni uni2])
                                else scanstring_loop fuel rest (chunks ++ [uni])
                            end
                        | None => scanstring_loop fuel rest (chunks ++ [uni])
                        end
                      else scanstring_loop fuel rest (chunks ++ [uni])
                  end
                else
                  match backslash_escape esc with
                  | Some c' => scanstring_loop fuel rest (chunks ++ [c'])
                  | None => Raise JSONDecodeError
                  end
            end
          else if c <=? 0x1F then Raise JSONDecodeError
          else scanstring_loop fuel rest (chunks ++ [c])
      end
  end.

Definition scanstring (s : str) : res (str * str) :=
  scanstring_loop (length s) s [].

(** The number at the head of the input, as the scanner matches it: an
    optional minus sign; the integer part, either 0 or a non-zero digit and
    any digits; optionally a point and at least one digit; optionally e or
    E, an optional sign and at least one digit. *)
Fixpoint span_digits (s : str) : str * str :=
  match s with
  | c :: rest =>
      if is_digit c then let '(ds, r) := span_digits rest in (c :: ds, r)
      else ([], s)
  | [] => ([], [])
  end.

Definition match_sign (s : str) : str * str :=
  match s with
  | c :: rest => if c =? ch "-" then ([c], rest) else ([], s)
  | [] => ([], [])
  end.

Definition match_integer (s : str) : option (str * str) :=
  match s with
  | c :: rest =>
      if c =? ch "0" then Some ([c], rest)
      else if is_digit c then let '(ds, r) := span_digits rest in Some (c :: ds, r)
      else None
  | [] => None
  end.

Definition match_fraction (s : str) : str * str :=
  match s with
  | c :: rest =>
      if c =? ch "." then
        match span_digits rest with
        | ([], _) => ([], s)
        | (ds, r) => (c :: ds, r)
        end
      else ([], s)
  | [] => ([], [])
  end.

Definition match_exponent (s : str) : str * str :=
  match s with
  | c :: rest =>
      if (c =? ch "e") || (c =? ch "E") then
        let '(sign, rest') :=
          match rest with
          | d :: r => if (d =? ch "-") || (d =? ch "+") then ([d], r) else ([], rest)
          | [] => ([], [])
          end in
        match span_digits rest' with
        | ([], _) => ([], s)
        | (ds, r) => (c :: sign ++ ds, r)
        end
      else ([], s)
  | [] => ([], [])
  end.

Local Close Scope N_scope.

Definition match_number (lim : limits) (s : str) : res (json * str) :=
  let '(sign, s1) := match_sign s in
  match match_integer s1 with
  | None => Raise JSONDecodeError
  | Some (digits, s2) =>
      let '(frac, s3) := match_fraction s2 in
      let '(exp, s4) := match_exponent s3 in
      match frac, exp with
      | [], [] =>
          if bool_decide (int_max_str_digits lim ≠ 0
                          ∧ int_max_str_digits lim < length digits)
          then Raise ValueError
          else Ok (JInt (sign ++ digits), s4)
      | _, _ => Ok (JFloat (sign ++ digits ++ frac ++ exp), s4)
      end
  end.

(** The named constants of the scanner, in the order it tries them. *)
Definition constants : list (str * json) :=
  [ (lit "null", JNull); (lit "true", JBool true); (lit "false", JBool false);
    (lit "NaN", JFloat (lit "NaN")); (lit "Infinity", JFloat (lit "Infinity"));
    (lit "-Infinity", JFloat (lit "-Infinity")) ].

Fixpoint match_constant (table : list (str * json)) (s : str)
    : option (json * str) :=
  match table with
  | [] => None
  | (name, value) :: table =>
      match strip_prefix name s with
      | Some rest => Some (value, rest)
      | None => match_constant table s
      end
  end.

Section containers.
Local Open Scope N_scope.

(** The scanner for the elements of a container. *)
Variable scan : str → res (json * str).

(** The loop of the array parser, entered on a non-empty array at its
    first element. The fuel is the length of the input. *)
Fixpoint array_loop (fuel : nat) (s : str) (values : list json)
    : res (json * str) :=
  match fuel with
  | O => Raise JSONDecodeError
  | S fuel =>
      match scan s with
      | Raise e => Raise e
      | Ok (value, s) =>
          let values := values ++ [value] in
          match skip_ws s with
          | c :: rest =>
              if c =? ch "]" then Ok (JList values, rest)
              else if c =? ch "," then array_loop fuel (skip_ws rest) values
              else Raise JSONDecodeError
          | [] => Raise JSONDecodeError
          end
      end
  end.

Definition parse_array (s : str) : res (json * str) :=
  match skip_ws s with
  | c :: rest =>
      if c =? ch "]" then Ok (JList [], rest)
      else array_loop (length (c :: rest)) (c :: rest) []
  | [] => Raise JSONDecodeError
  end.

(** The loop of the object parser, entered at the first property name. *)
Fixpoint object_loop (fuel : nat) (s : str) (pairs : list (str * json))
    : res (json * str) :=
  match fuel with
  | O => Raise JSONDecodeError
  | S fuel =>
      match s with
      | c :: rest =>
          if c =? quote then
            match scanstring rest with
            | Raise e => Raise e
            | Ok (key, s) =>
                match skip_ws s with
                | c :: rest =>
                    if c =? ch ":" then
                      match scan (skip_ws rest) with
                      | Raise e => Raise e
                      | Ok (value, s) =>
                          let pairs := pairs ++ [(key, value)] in
                          match skip_ws s with
                          | c :: rest =>
                              if c =? ch "}" then Ok (JDict pairs, rest)
                              else if c =? ch ","
                              then object_loop fuel (skip_ws rest) pairs
                              else Raise JSONDecodeError
                          | [] => Raise JSONDecodeError
                          end
                      end
                    else Raise JSONDecodeError
                | [] => Raise JSONDecodeError
                end
            end
          else Raise JSONDecodeError
      | [] => Raise JSONDecodeError
      end
  end.

Definition parse_object (s : str) : res (json * str) :=
  match skip_ws s with
  | c :: rest =>
      if c =? ch "}" then Ok (JDict [], rest)
      else object_loop (length (c :: rest)) (c :: rest) []
  | [] => Raise JSONDecodeError
  end.
End containers.

(** [scan_once]: one JSON value at the head of the input. Entering an array
    or an object uses up one level of [depth]. *)
Fixpoint scan_once (lim : limits) (depth : nat) (s : str) {struct depth}
    : res (json * str) :=
  match s with
  | [] => Raise JSONDecodeError
  | c :: rest =>
      if (c =? quote)%N then
        match scanstring rest with
        | Ok (value, rest) => Ok (JStr value, rest)
        | Raise e => Raise e
        end
      else if (c =? ch "{")%N then
        match depth with
        | O => Raise RecursionError
        | S depth => parse_object (scan_once lim depth) rest
        end
      else if (c =? ch "[")%N then
        match depth with
        | O => Raise RecursionError
        | S depth => parse_array (scan_once lim depth) rest
        end
      else
        match match_constant constants s with
        | Some found => Ok found
        | None => match_number lim s
        end
  end.

(** [json.loads(s)] for a [str]: a leading byte order mark is refused, and
    only whitespace may surround the value. *)
Definition json_loads (lim : limits) (s : str) : res json :=
  if bool_decide (head s = Some 0xFEFF%N) then Raise JSONDecodeError
  else
    match scan_once lim (recursion_depth lim) (skip_ws s) with
    | Raise e => Raise e
    | Ok (obj, rest) =>
        match skip_ws rest with
        | [] => Ok obj
        | _ :: _ => Raise JSONDecodeError
        end
    end.

(** ** [expand_keywords] *)

(** What the request to the model comes back with: an exception raised
    before the content is in hand, or a response whose message content is a
    string or [None]. The prompt, built from the keywords and the category,
    has no part in what follows. *)
Inductive api_reply : Type :=
  | api_raises
  | api_content (content : option str).

(** The two substitutions and the two [strip]s applied to the content. *)
Definition clean (content : str) : str :=
  strip (remove_fence (lit "```") (remove_fence (lit "```json") (strip content))).

(** The loop over a parsed list: strings are lowercased and trimmed, and
    kept when more than one character long. *)
Definition strict_step (normalized : list str) (kw : json) : list str :=
  match kw with
  | JStr s =>
      let kw := normalize s in
      if bool_decide (kw ≠ []) && bool_decide (1 < length kw)
      then normalized ++ [kw]
      else normalized
  | _ => normalized
  end.

Definition strict_normalize (keywords_list : list json) : list str :=
  foldl strict_step [] keywords_list.

(** The comprehension of the fallback over the quoted substrings. *)
Definition fallback_extract (content : str) : list str :=
  normalize <$>
    filter (λ kw, strip kw ≠ [] ∧ 1 < length (strip kw)) (findall_quoted content).

(** The body of the outer [try]; only [JSONDecodeError] is handled inside. *)
Definition expand_keywords_try (lim : limits) (reply : api_reply)
    : res (list str) :=
  match reply with
  | api_raises => Raise APIError
  | api_content None => Raise AttributeError
  | api_content (Some content) =>
      let content := clean content in
      match json_loads lim content with
      | Ok (JList keywords_list) => Ok (strict_normalize keywords_list)
      | Ok _ => Ok []
      | Raise JSONDecodeError => Ok (fallback_extract content)
      | Raise e => Raise e
      end
  end.

(** [expand_keywords], given the reply to its request: any exception left
    is caught and an empty list returned. *)
Definition expand_keywords (lim : limits) (reply : api_reply) : res (list str) :=
  match expand_keywords_try lim reply with
  | Ok keywords => Ok keywords
  | Raise _ => Ok []
  end.

(** Parsing a payload: [expand_keywords] on a reply with that content. *)
Definition parse (lim : limits) (payload : str) : res (list str) :=
  expand_keywords lim (api_content (Some payload)).

(** ** Notions used to state the properties *)

(** A code point that [str.lower] leaves alone wherever it stands. *)
Definition lower_fixed (c : N) : bool :=
  negb (c =? 0x3A3)%N && negb (c =? 0x130)%N
  && match assoc c lower_table with Some _ => false | None => true end.

(** A string that is its own [kw.lower().strip()]. *)
Definition normalized (kw : str) : Prop := normalize kw = kw.

(** The entries the loop of [deduplicate] appends when it runs over [l]
    with the entries of [prior] already seen. *)
Fixpoint new_entries (prior l : list str) : list str :=
  match l with
  | [] => []
  | kw :: rest =>
      let k := normalize kw in
      if decide (k ≠ [] ∧ k ∉ prior)
      then k :: new_entries (prior ++ [k]) rest
      else new_entries prior rest
  end.

(** The KeywordList invariant as the specification words it: no entry is
    empty or of length at most 1, and no two entries are equal after
    lowercasing and trimming. *)
Definition keyword_list (l : list str) : Prop :=
  Forall (λ kw, 2 ≤ length kw) l ∧ NoDup (normalize <$> l).

(** How [lower] reshapes a string: code point by code point, each replaced
    by a non-empty image that is whitespace exactly when the code point is,
    and that has length 1 unless the code point is U+0130. *)
Inductive lower_shape : str → str → Prop :=
  | lower_shape_nil : lower_shape [] []
  | lower_shape_cons c img s t :
      img ≠ [] →
      Forall (λ d, isspace d = isspace c) img →
      (c ≠ 0x130%N → length img = 1) →
      lower_shape s t →
      lower_shape (c :: s) (img ++ t).

(** The strings among the elements of a parsed list. *)
Definition json_strings (l : list json) : list str :=
  omap (λ v, match v with JStr s => Some s | _ => None end) l.

(** A scanner that, when it succeeds, has read at least one code point. *)
Definition consuming (scan : str → res (json * str)) : Prop :=
  ∀ s v rest, scan s = Ok (v, rest) → length rest < length s.

(** ** [load_env_file] *)

(** A directory is the list of the names on the way to it from the root.
    [parents] lists the directories above one, nearest first, as
    [Path.parents] does; it runs over the names in reverse. *)
Fixpoint parents_rev (names_rev : list str) : list (list str) :=
  match names_rev with
  | [] => []
  | _ :: above => reverse above :: parents_rev above
  end.

Definition parents (dir : list str) : list (list str) :=
  parents_rev (reverse dir).

(** [load_env_file]: the directory whose [.env] file is handed to
    [load_dotenv], if any. [has_env dir] tells whether [dir / .env] exists. *)
Definition load_env_file (has_env : list str → bool) (current_dir : list str)
    : option (list str) :=
  list_find (λ dir, has_env dir = true) (current_dir :: parents current_dir)
  ≫= (λ found, Some found.2).

(** ** [main] *)

(** *** [json.dumps(result, indent=2, ensure_ascii=False)] *)

Definition hex_char (d : N) : N :=
  if (d <? 10)%N then (ch "0" + d)%N else (ch "a" + (d - 10))%N.

(** The replacement [encode_basestring] makes for one code point. *)
Definition escape_char (c : N) : str :=
  if (c =? quote)%N then [backslash; quote]
  else if (c =? backslash)%N then [backslash; backslash]
  else if (c =? 0x0A)%N then [backslash; ch "n"]
  else if (c =? 0x0D)%N then [backslash; ch "r"]
  else if (c =? 0x09)%N then [backslash; ch "t"]
  else if (c =? 0x08)%N then [backslash; ch "b"]
  else if (c =? 0x0C)%N then [backslash; ch "f"]
  else if (c <? 0x20)%N then
    [backslash; ch "u"; ch "0"; ch "0"; hex_char (c / 16); hex_char (c mod 16)]
  else [c].

Definition encode_basestring (s : str) : str :=
  quote :: concat (escape_char <$> s) ++ [quote].

(** A line break and the indentation of a nesting level, two spaces each. *)
Definition newline_indent (level : nat) : str :=
  0x0A%N :: concat (replicate level (lit "  ")).

(** A list of strings, written inside a container of the given level. *)
Definition dumps_list (level : nat) (l : list str) : str :=
  match l with
  | [] => lit "[]"
  | first :: others =>
      lit "[" ++ newline_indent (S level) ++ encode_basestring first
      ++ concat ((λ kw, lit "," ++ newline_indent (S level) ++ encode_basestring kw)
                   <$> others)
      ++ newline_indent level ++ lit "]"
  end.

(** The dictionary [result] of [main], with its two keys in their order. *)
Definition dumps_result (all_daw all_arranger : list str) : str :=
  lit "{" ++ newline_indent 1
  ++ encode_basestring (lit "daw") ++ lit ": " ++ dumps_list 1 all_daw
  ++ lit "," ++ newline_indent 1
  ++ encode_basestring (lit "arranger") ++ lit ": " ++ dumps_list 1 all_arranger
  ++ newline_indent 0 ++ lit "}".

(** *** The function *)




(** ** Further notions used to state the properties *)

(** [p] occurs in [s]. *)
Definition occurs_in (p s : str) : Prop := ∃ before after, s = before ++ p ++ after.

(** The character the fences are made of. *)
Definition backtick : N := 96%N.

(** * Properties *)

(** ** Strings: [strip] *)

Section drop_while.
Context {A : Type} (p : A → bool).

Lemma drop_while_suffix l : drop_while p l `suffix_of` l.
Proof.
  induction l as [|x l IH]; simpl; [done|].
  destruct (p x); [by apply suffix_cons_r | done].
Qed.

Lemma drop_while_head l x : head (drop_while p l) = Some x → p x = false.
Proof.
  induction l as [|y l IH]; simpl; [done|].
  destruct (p y) eqn:Hy; [done|]. simpl. by intros [= <-].
Qed.

Lemma drop_while_id l x : head l = Some x → p x = false → drop_while p l = l.
Proof. destruct l as [|y l]; simpl; [done|]. by intros [= ->] ->. Qed.

Lemma drop_while_idem l : drop_while p (drop_while p l) = drop_while p l.
Proof.
  destruct (drop_while p l) as [|x k] eqn:E; [done|].
  apply (drop_while_id _ x); [done|].
  apply (drop_while_head l). by rewrite E.
Qed.

Lemma drop_while_all l : forallb p l = true → drop_while p l = [].
Proof.
  induction l as [|x l IH]; simpl; [done|].
  intros [-> ?]%andb_true_iff. auto.
Qed.
End drop_while.

Lemma lstrip_suffix s : lstrip s `suffix_of` s.
Proof. apply drop_while_suffix. Qed.

Lemma rstrip_prefix s : rstrip s `prefix_of` s.
Proof.
  unfold rstrip. rewrite <- (reverse_involutive s) at 2.
  apply suffix_prefix_reverse, drop_while_suffix.
Qed.

Lemma strip_sublist s : strip s `sublist_of` s.
Proof.
  unfold strip. trans (rstrip s).
  - destruct (lstrip_suffix (rstrip s)) as [pre E].
    rewrite E at 2. by apply sublist_inserts_l.
  - destruct (rstrip_prefix s) as [post E].
    rewrite E at 2. by apply sublist_inserts_r.
Qed.

Lemma rstrip_last s x : last (rstrip s) = Some x → isspace x = false.
Proof.
  unfold rstrip. rewrite last_reverse. apply drop_while_head.
Qed.

Lemma rstrip_id s x : last s = Some x → isspace x = false → rstrip s = s.
Proof.
  intros Hl Hx. unfold rstrip.
  rewrite (drop_while_id _ _ x); [apply reverse_involutive| |done].
  by rewrite head_reverse.
Qed.

Lemma suffix_last (l k : str) x :
  l `suffix_of` k → l ≠ [] → last k = Some x → last l = Some x.
Proof.
  intros [pre ->] Hne. rewrite last_app.
  destruct (last l) eqn:E; [done|]. by apply last_None in E.
Qed.

(** A stripped string has no surrounding whitespace left. *)
Lemma strip_last s x : last (strip s) = Some x → isspace x = false.
Proof.
  intros Hl. destruct (decide (strip s = [])) as [E|E]; [by rewrite E in Hl|].
  destruct (last (rstrip s)) as [y|] eqn:Ey.
  - assert (last (strip s) = Some y) as Hy.
    { apply (suffix_last _ (rstrip s)); [apply lstrip_suffix | done | done]. }
    rewrite Hl in Hy. injection Hy as ->. by apply (rstrip_last s).
  - apply last_None in Ey. unfold strip in E. by rewrite Ey in E.
Qed.

Lemma strip_head s x : head (strip s) = Some x → isspace x = false.
Proof. apply drop_while_head. Qed.

Lemma strip_fixed s :
  (∀ x, head s = Some x → isspace x = false) →
  (∀ x, last s = Some x → isspace x = false) →
  strip s = s.
Proof.
  intros Hh Hl. unfold strip.
  assert (rstrip s = s) as ->.
  { destruct (last s) as [x|] eqn:E.
    - apply (rstrip_id _ x); auto.
    - by apply last_None in E as ->. }
  unfold lstrip. destruct (head s) as [x|] eqn:E.
  - apply (drop_while_id _ _ x); auto.
  - by apply head_None in E as ->.
Qed.

Lemma strip_idem s : strip (strip s) = strip s.
Proof. apply strip_fixed; [apply strip_head | apply strip_last]. Qed.

Lemma strip_Forall (P : N → Prop) s : Forall P s → Forall P (strip s).
Proof.
  rewrite !Forall_forall. intros H x Hx. apply H.
  eapply elem_of_sublist; [done | apply strip_sublist].
Qed.

Lemma strip_length s : length (strip s) ≤ length s.
Proof. apply sublist_length, strip_sublist. Qed.

(** ** Strings: [lower] *)

Lemma assoc_Some c t d : assoc c t = Some d → (c, d) ∈ t.
Proof.
  induction t as [|[k v] t IH]; simpl; [done|].
  destruct (N.eqb_spec c k) as [->|_].
  - intros [= ->]. left.
  - intros H. right. auto.
Qed.

Lemma lower_table_images_fixed :
  forallb (λ kv, lower_fixed kv.2) lower_table = true.
Proof. vm_compute. reflexivity. Qed.

Lemma to_lower_full_fixed c :
  Forall (λ d, lower_fixed d = true) (to_lower_full c).
Proof.
  unfold to_lower_full. destruct (N.eqb_spec c 0x130) as [->|Hc].
  { repeat constructor. }
  destruct (assoc c lower_table) as [d|] eqn:E.
  - constructor; [|constructor].
    apply assoc_Some in E.
    pose proof lower_table_images_fixed as H.
    rewrite forallb_forall in H. apply list_elem_of_In, H in E. exact E.
  - constructor; [|constructor]. unfold lower_fixed. rewrite E.
    destruct (N.eqb_spec c 0x3A3) as [->|_]; [by vm_compute in E|].
    destruct (N.eqb_spec c 0x130); [done|reflexivity].
Qed.

Lemma lower_char_fixed before c after :
  Forall (λ d, lower_fixed d = true) (lower_char before c after).
Proof.
  unfold lower_char. destruct (c =? 0x3A3)%N; [|apply to_lower_full_fixed].
  destruct (final_sigma before after); repeat constructor.
Qed.

(** Every code point of a lowercased string is left alone by [lower]. *)
Lemma lower_from_fixed before s :
  Forall (λ d, lower_fixed d = true) (lower_from before s).
Proof.
  revert before. induction s as [|c s IH]; intros before; simpl; [constructor|].
  apply Forall_app. split; [apply lower_char_fixed | apply IH].
Qed.

Lemma lower_char_id before c after :
  lower_fixed c = true → lower_char before c after = [c].
Proof.
  unfold lower_fixed, lower_char, to_lower_full.
  intros [[H1 H2]%andb_true_iff H3]%andb_true_iff.
  apply negb_true_iff in H1 as ->. apply negb_true_iff in H2 as ->.
  by destruct (assoc c lower_table).
Qed.

Lemma lower_from_id before s :
  Forall (λ d, lower_fixed d = true) s → lower_from before s = s.
Proof.
  intros H. revert before. induction H as [|c s Hc _ IH]; intros before; simpl.
  - done.
  - by rewrite lower_char_id, IH.
Qed.

Lemma lower_idem s : lower (lower s) = lower s.
Proof. apply lower_from_id, lower_from_fixed. Qed.

(** [kw.lower().strip()] is idempotent. *)
Lemma normalize_idem kw : normalize (normalize kw) = normalize kw.
Proof.
  unfold normalize at 1. unfold lower.
  rewrite lower_from_id.
  - apply strip_idem.
  - apply strip_Forall, lower_from_fixed.
Qed.

Lemma normalize_normalized kw : normalized (normalize kw).
Proof. apply normalize_idem. Qed.

(** ** Strings: the length of [kw.lower().strip()] *)

Lemma lower_table_no_space :
  forallb (λ kv, negb (isspace kv.1) && negb (isspace kv.2)) lower_table = true.
Proof. vm_compute. reflexivity. Qed.

Lemma to_lower_full_shape c :
  let img := to_lower_full c in
  img ≠ [] ∧ Forall (λ d, isspace d = isspace c) img
  ∧ (c ≠ 0x130%N → length img = 1).
Proof.
  unfold to_lower_full. destruct (N.eqb_spec c 0x130) as [->|Hc].
  { split_and!; [done|by repeat constructor|done]. }
  destruct (assoc c lower_table) as [d|] eqn:E.
  - split_and!; [done| |done]. constructor; [|constructor].
    apply assoc_Some, list_elem_of_In in E.
    pose proof lower_table_no_space as H. rewrite forallb_forall in H.
    apply H in E. simpl in E.
    apply andb_true_iff in E as [H1%negb_true_iff H2%negb_true_iff].
    by rewrite H1, H2.
  - split_and!; [done|by repeat constructor|done].
Qed.

Lemma lower_char_shape before c after :
  let img := lower_char before c after in
  img ≠ [] ∧ Forall (λ d, isspace d = isspace c) img
  ∧ (c ≠ 0x130%N → length img = 1).
Proof.
  unfold lower_char. destruct (N.eqb_spec c 0x3A3) as [->|Hc].
  - destruct (final_sigma before after);
      (split_and!; [done|by repeat constructor|done]).
  - apply to_lower_full_shape.
Qed.

Lemma lower_from_shape before s : lower_shape s (lower_from before s).
Proof.
  revert before. induction s as [|c s IH]; intros before; simpl.
  - constructor.
  - destruct (lower_char_shape before c s) as (?&?&?). by constructor.
Qed.

Lemma lower_shape_length s t :
  lower_shape s t →
  length s ≤ length t ∧ (0x130%N ∉ s → length t = length s).
Proof.
  induction 1 as [|c img s t Hne Hsp Hlen _ [IH1 IH2]]; [done|].
  rewrite length_app. cbn [length]. split.
  - destruct img; [done|]. cbn [length]. lia.
  - intros [Hc Hs]%not_elem_of_cons. rewrite IH2 by done.
    rewrite Hlen by done. done.
Qed.

Lemma lower_shape_nil_iff s t : lower_shape s t → s = [] ↔ t = [].
Proof.
  destruct 1 as [|c img s t Hne]; [done|]. split; [done|].
  intros [? _]%app_eq_nil. done.
Qed.

Lemma drop_while_app_all {A} (p : A → bool) l k :
  Forall (λ x, p x = true) l → drop_while p (l ++ k) = drop_while p k.
Proof. induction 1 as [|x l Hx _ IH]; simpl; [done|]. by rewrite Hx. Qed.

Lemma lower_shape_lstrip s t :
  lower_shape s t → lower_shape (lstrip s) (lstrip t).
Proof.
  unfold lstrip. induction 1 as [|c img s t Hne Hsp Hlen Hst IH]; [constructor|].
  cbn [drop_while]. destruct (isspace c) eqn:Hc.
  - by rewrite drop_while_app_all.
  - destruct img as [|d img]; [done|]. cbn [app drop_while].
    pose proof (proj1 (Forall_cons _ _ _) Hsp) as [Hd _]. simpl in Hd.
    rewrite Hd.
    apply (lower_shape_cons c (d :: img)); [done|by rewrite Hc|done..].
Qed.

Lemma lower_shape_snoc s t c img :
  lower_shape s t →
  img ≠ [] → Forall (λ d, isspace d = isspace c) img →
  (c ≠ 0x130%N → length img = 1) →
  lower_shape (s ++ [c]) (t ++ img).
Proof.
  induction 1 as [|c' img' s t ? ? ? _ IH]; intros Hne Hsp Hlen.
  - simpl. rewrite <- (app_nil_r img). by constructor; [..|constructor].
  - rewrite <- !app_comm_cons, <- app_assoc. constructor; auto.
Qed.

Lemma lower_shape_reverse s t :
  lower_shape s t → lower_shape (reverse s) (reverse t).
Proof.
  induction 1 as [|c img s t Hne Hsp Hlen _ IH]; [constructor|].
  rewrite reverse_cons, reverse_app. apply lower_shape_snoc; [done|..].
  - intros H. apply Hne. by rewrite <- (reverse_involutive img), H.
  - by apply Forall_reverse.
  - by rewrite length_reverse.
Qed.

Lemma lower_shape_strip s t :
  lower_shape s t → lower_shape (strip s) (strip t).
Proof.
  intros H. unfold strip, rstrip.
  by apply lower_shape_lstrip, lower_shape_reverse, lower_shape_lstrip,
    lower_shape_reverse.
Qed.

Lemma normalize_shape kw : lower_shape (strip kw) (normalize kw).
Proof. apply lower_shape_strip, lower_from_shape. Qed.

(** Lowercasing never shortens the trimmed keyword, and keeps its length
    when the keyword is free of U+0130. *)
Lemma normalize_length kw :
  length (strip kw) ≤ length (normalize kw)
  ∧ (0x130%N ∉ kw → length (normalize kw) = length (strip kw)).
Proof.
  destruct (lower_shape_length _ _ (normalize_shape kw)) as [H1 H2].
  split; [done|]. intros Hkw. apply H2. intros Hin. apply Hkw.
  eapply elem_of_sublist; [done | apply strip_sublist].
Qed.

Lemma normalize_nil_iff kw : strip kw = [] ↔ normalize kw = [].
Proof. apply lower_shape_nil_iff, normalize_shape. Qed.

(** ** The loop of [deduplicate] *)

Lemma dedup_step_spec seen result kw :
  (∀ x, x ∈ seen ↔ x ∈ result) →
  let k := normalize kw in
  dedup_step (seen, result) kw =
    if decide (k ≠ [] ∧ k ∉ result)
    then ({[k]} ∪ seen, result ++ [k]) else (seen, result).
Proof.
  intros Hseen k. unfold dedup_step. fold k.
  destruct (decide (k ≠ [] ∧ k ∉ result)) as [[H1 H2]|H].
  - rewrite !bool_decide_eq_true_2; [done| |done]. by rewrite Hseen.
  - apply not_and_l in H as [H|H].
    + rewrite (bool_decide_eq_false_2 (k ≠ [])); done.
    + rewrite (bool_decide_eq_false_2 (k ∉ seen)); [|by rewrite Hseen].
      by rewrite andb_false_r.
Qed.

(** The set [seen] always holds exactly the entries of [result]; the loop
    therefore appends the [new_entries] of its input. *)
Lemma dedup_loop l : ∀ seen result,
  (∀ x, x ∈ seen ↔ x ∈ result) →
  (foldl dedup_step (seen, result) l).2 = result ++ new_entries result l.
Proof.
  induction l as [|kw l IH]; intros seen result Hseen; cbn [foldl new_entries].
  - by rewrite app_nil_r.
  - rewrite dedup_step_spec by done.
    destruct (decide (normalize kw ≠ [] ∧ normalize kw ∉ result)).
    + rewrite IH.
      * by rewrite <- app_assoc.
      * intros x. rewrite elem_of_union, elem_of_singleton, elem_of_app,
          list_elem_of_singleton, Hseen. tauto.
    + by apply IH.
Qed.

Lemma deduplicate_new_entries l : deduplicate l = new_entries [] l.
Proof.
  unfold deduplicate. rewrite dedup_loop; [done|].
  intros x. rewrite elem_of_empty, elem_of_nil. tauto.
Qed.

Lemma new_entries_ext P Q l :
  (∀ x, x ∈ P ↔ x ∈ Q) → new_entries P l = new_entries Q l.
Proof.
  revert P Q. induction l as [|kw l IH]; intros P Q H; simpl; [done|].
  destruct (decide (normalize kw ≠ [] ∧ normalize kw ∉ P)) as [HP|HP];
    destruct (decide (normalize kw ≠ [] ∧ normalize kw ∉ Q)) as [HQ|HQ].
  - f_equal. apply IH. intros x. rewrite !elem_of_app, H. tauto.
  - rewrite H in HP. tauto.
  - rewrite <- H in HQ. tauto.
  - by apply IH.
Qed.

Lemma elem_of_new_entries P l x :
  x ∈ new_entries P l ↔
  x ≠ [] ∧ (x ∉ P) ∧ (∃ kw, kw ∈ l ∧ x = normalize kw).
Proof.
  revert P. induction l as [|kw l IH]; intros P; simpl.
  - rewrite elem_of_nil. split; [done|]. intros (_ & _ & kw & H & _).
    by apply elem_of_nil in H.
  - destruct (decide (normalize kw ≠ [] ∧ normalize kw ∉ P)) as [[H1 H2]|H].
    + rewrite elem_of_cons, IH, elem_of_app, list_elem_of_singleton. split.
      * intros [->|(Hx & HP & kw' & Hin & ->)].
        -- split_and!; [done..|]. exists kw. split; [left|done].
        -- split_and!; [done|tauto|]. exists kw'. split; [by right|done].
      * intros (Hx & HP & kw' & Hin & ->).
        apply elem_of_cons in Hin as [->|Hin]; [by left|].
        destruct (decide (normalize kw' = normalize kw)); [by left|].
        right. split_and!; [done|tauto|]. by exists kw'.
    + rewrite IH. split.
      * intros (Hx & HP & kw' & Hin & ->). split_and!; [done..|].
        exists kw'. split; [by right|done].
      * intros (Hx & HP & kw' & Hin & ->). split_and!; [done..|].
        apply elem_of_cons in Hin as [->|Hin]; [tauto|]. by exists kw'.
Qed.

Lemma NoDup_new_entries P l : NoDup (new_entries P l).
Proof.
  revert P. induction l as [|kw l IH]; intros P; simpl; [constructor|].
  destruct (decide _); [|done]. constructor; [|done].
  rewrite elem_of_new_entries, elem_of_app, list_elem_of_singleton. tauto.
Qed.

Lemma new_entries_app P l1 l2 :
  new_entries P (l1 ++ l2) =
  new_entries P l1 ++ new_entries (P ++ new_entries P l1) l2.
Proof.
  revert P. induction l1 as [|kw l1 IH]; intros P; simpl.
  - by rewrite app_nil_r.
  - destruct (decide _); [|done].
    rewrite IH. simpl. by rewrite <- app_assoc.
Qed.

(** What is new with respect to [P ++ Q] is what is new with respect to [Q]
    and not in [P]. *)
Lemma new_entries_filter P Q l :
  new_entries (P ++ Q) l = filter (λ x, x ∉ P) (new_entries Q l).
Proof.
  revert Q. induction l as [|kw l IH]; intros Q; simpl; [done|].
  set (k := normalize kw).
  destruct (decide (k ≠ [] ∧ k ∉ Q)) as [[H1 H2]|H].
  - destruct (decide (k ∈ P)) as [HP|HP].
    + rewrite filter_cons_False by tauto.
      rewrite decide_False by (rewrite elem_of_app; tauto).
      rewrite <- IH. apply new_entries_ext. intros x.
      rewrite !elem_of_app, list_elem_of_singleton.
      split; [tauto|]. intros [?|[?| ->]]; tauto.
    + rewrite filter_cons_True by done.
      rewrite decide_True by (rewrite elem_of_app; tauto).
      by rewrite <- IH, app_assoc.
  - rewrite decide_False by (rewrite elem_of_app; tauto). apply IH.
Qed.

Lemma new_entries_seen P l :
  (∀ kw, kw ∈ l → normalize kw = [] ∨ normalize kw ∈ P) →
  new_entries P l = [].
Proof.
  induction l as [|kw l IH]; intros H; simpl; [done|].
  rewrite decide_False.
  - apply IH. intros kw' Hin. apply H. by right.
  - destruct (H kw) as [?|?]; [left|tauto..].
Qed.

Lemma new_entries_fixed P l :
  Forall normalized l → NoDup l → [] ∉ l → (∀ x, x ∈ l → x ∉ P) →
  new_entries P l = l.
Proof.
  revert P. induction l as [|kw l IH]; intros P Hn Hd Hne HP;
    cbn [new_entries]; [done|].
  apply Forall_cons in Hn as [Hkw Hn]. apply NoDup_cons in Hd as [Hkl Hd].
  apply not_elem_of_cons in Hne as [Hne1 Hne].
  unfold normalized in Hkw. rewrite Hkw.
  rewrite decide_True.
  - f_equal. apply IH; [done..|]. intros x Hx.
    rewrite elem_of_app, list_elem_of_singleton. intros [HxP| ->].
    + by apply (HP x); [right|].
    + done.
  - split; [done|]. apply HP. left.
Qed.

(** Each appended entry is the normalized form of the first element of the
    input that normalizes to it. *)
Lemma new_entries_first P l x :
  x ∈ new_entries P l →
  ∃ i kw, l !! i = Some kw ∧ normalize kw = x
          ∧ ∀ j kw', j < i → l !! j = Some kw' → normalize kw' ≠ x.
Proof.
  revert P. induction l as [|kw l IH]; intros P; simpl.
  - by intros ?%elem_of_nil.
  - destruct (decide (normalize kw ≠ [] ∧ normalize kw ∉ P)) as [[H1 H2]|H].
    + intros [->|Hx]%elem_of_cons.
      * exists 0, kw. split_and!; [done..|]. intros j kw' Hj. lia.
      * pose proof Hx as Hx'. apply elem_of_new_entries in Hx' as (_ & Hnot & _).
        destruct (IH _ Hx) as (i & kw1 & Hi & Hn & Hfirst).
        exists (S i), kw1. split_and!; [done..|].
        intros [|j] kw' Hj; simpl.
        -- intros [= <-]. intros <-. apply Hnot.
           rewrite elem_of_app, list_elem_of_singleton. by right.
        -- apply Hfirst. lia.
    + intros Hx. pose proof Hx as Hx'.
      apply elem_of_new_entries in Hx' as (Hne & Hnot & _).
      destruct (IH _ Hx) as (i & kw1 & Hi & Hn & Hfirst).
      exists (S i), kw1. split_and!; [done..|].
      intros [|j] kw' Hj; simpl.
      * intros [= <-]. intros <-. tauto.
      * apply Hfirst. lia.
Qed.

(** ** The merged list *)

Lemma new_entries_normalized P l : Forall normalized (new_entries P l).
Proof.
  apply Forall_forall. intros x (_ & _ & kw & _ & ->)%elem_of_new_entries.
  apply normalize_normalized.
Qed.

Lemma new_entries_sublist P l : new_entries P l `sublist_of` normalize <$> l.
Proof.
  revert P. induction l as [|kw l IH]; intros P; cbn [new_entries].
  - constructor.
  - rewrite fmap_cons. destruct (decide _); [apply sublist_skip | apply sublist_cons]; apply IH.
Qed.

Lemma fmap_normalize_fixed l : Forall normalized l → normalize <$> l = l.
Proof.
  induction 1 as [|kw l Hkw _ IH]; [done|].
  rewrite fmap_cons. by rewrite Hkw, IH.
Qed.

Lemma normalize_strip_fixed kw : strip (normalize kw) = normalize kw.
Proof. apply strip_idem. Qed.

Lemma deduplicate_elem_of l x :
  x ∈ deduplicate l ↔ x ≠ [] ∧ (∃ kw, kw ∈ l ∧ x = normalize kw).
Proof.
  rewrite deduplicate_new_entries, elem_of_new_entries.
  split; [tauto|]. intros [? ?]. split_and!; [done| |done]. apply not_elem_of_nil.
Qed.

(** A list of distinct, non-empty, already normalized entries is what
    [deduplicate] makes of it. *)
Lemma deduplicate_fixed l :
  Forall normalized l → NoDup l → [] ∉ l → deduplicate l = l.
Proof.
  intros. rewrite deduplicate_new_entries.
  apply new_entries_fixed; [done..|]. intros x _. apply not_elem_of_nil.
Qed.

Lemma deduplicate_output l :
  Forall normalized (deduplicate l) ∧ NoDup (deduplicate l)
  ∧ [] ∉ deduplicate l.
Proof.
  rewrite deduplicate_new_entries. split_and!.
  - apply new_entries_normalized.
  - apply NoDup_new_entries.
  - intros H%elem_of_new_entries. tauto.
Qed.

(** ** The two paths of [expand_keywords] *)

Lemma strict_normalize_loop l acc :
  foldl strict_step acc l
  = acc ++ filter (λ kw, 1 < length kw) (normalize <$> json_strings l).
Proof.
  revert acc. induction l as [|v l IH]; intros acc; cbn [foldl].
  - by rewrite app_nil_r.
  - rewrite IH. unfold json_strings. cbn [omap list_omap].
    destruct v; try done.
    cbn [strict_step]. rewrite fmap_cons, filter_cons.
    destruct (decide (1 < length (normalize s))) as [Hlen|Hlen].
    + rewrite (bool_decide_eq_true_2 (normalize s ≠ [])).
      2: { intros Hnil. rewrite Hnil in Hlen. simpl in Hlen. lia. }
      rewrite (bool_decide_eq_true_2 (1 < _)) by done.
      cbn [andb]. by rewrite <- app_assoc.
    + rewrite (bool_decide_eq_false_2 (1 < _)) by done.
      by rewrite andb_false_r.
Qed.

Lemma strict_normalize_spec l :
  strict_normalize l
  = filter (λ kw, 1 < length kw) (normalize <$> json_strings l).
Proof. apply strict_normalize_loop. Qed.


Lemma fallback_extract_spec content :
  fallback_extract content
  = normalize <$> filter (λ kw, 1 < length (strip kw)) (findall_quoted content).
Proof.
  unfold fallback_extract. f_equal. apply list_filter_iff.
  intros kw. split; [tauto|]. intros Hlen. split; [|done].
  intros Hnil. rewrite Hnil in Hlen. simpl in Hlen. lia.
Qed.


Lemma parse_strict lim payload items :
  json_loads lim (clean payload) = Ok (JList items) →
  parse lim payload = Ok (strict_normalize items).
Proof.
  intros H. unfold parse, expand_keywords, expand_keywords_try. by rewrite H.
Qed.

Lemma parse_not_list lim payload v :
  json_loads lim (clean payload) = Ok v → (∀ items, v ≠ JList items) →
  parse lim payload = Ok [].
Proof.
  intros H Hv. unfold parse, expand_keywords, expand_keywords_try. rewrite H.
  destruct v; try done. by destruct (Hv items).
Qed.

Lemma parse_decode_error lim payload :
  json_loads lim (clean payload) = Raise JSONDecodeError →
  parse lim payload = Ok (fallback_extract (clean payload)).
Proof.
  intros H. unfold parse, expand_keywords, expand_keywords_try. by rewrite H.
Qed.

Lemma parse_other_error lim payload e :
  json_loads lim (clean payload) = Raise e → e ≠ JSONDecodeError →
  parse lim payload = Ok [].
Proof.
  intros H He. unfold parse, expand_keywords, expand_keywords_try. rewrite H.
  by destruct e.
Qed.

(** Whatever the payload, the result is one of the three: the normalized
    strings of a parsed list, the normalized quoted substrings, or nothing. *)
Lemma parse_cases lim payload :
  (∃ items, json_loads lim (clean payload) = Ok (JList items)
            ∧ parse lim payload = Ok (strict_normalize items))
  ∨ (json_loads lim (clean payload) = Raise JSONDecodeError
     ∧ parse lim payload = Ok (fallback_extract (clean payload)))
  ∨ parse lim payload = Ok [].
Proof.
  destruct (json_loads lim (clean payload)) as [v|e] eqn:H.
  - destruct v; try (right; right; eapply parse_not_list; [done|done]).
    left. eexists. split; [done|]. by apply parse_strict.
  - destruct e; try (right; right; eapply parse_other_error; [done|done]).
    right. left. split; [done|]. by apply parse_decode_error.
Qed.

(** Every entry the parser returns is lowercased and trimmed and has more
    than one character. *)
Lemma parse_output lim payload out :
  parse lim payload = Ok out →
  Forall (λ kw, normalized kw ∧ 1 < length kw) out.
Proof.
  intros Hout.
  destruct (parse_cases lim payload) as [(items & _ & H)|[[_ H]|H]];
    rewrite H in Hout; injection Hout as <-.
  - rewrite strict_normalize_spec. apply Forall_forall.
    intros kw [Hlen (s & -> & _)%list_elem_of_fmap]%list_elem_of_filter.
    split; [apply normalize_normalized | done].
  - rewrite fallback_extract_spec. apply Forall_forall.
    intros kw (s & -> & [Hlen _]%list_elem_of_filter)%list_elem_of_fmap.
    split; [apply normalize_normalized|].
    destruct (normalize_length s) as [Hle _]. lia.
  - constructor.
Qed.

(** ** The loops never run out of fuel

    Each loop is given the length of its input as fuel and reads at least
    one code point per iteration: with any larger amount of fuel it computes
    the same result, so the fuel is exhausted only when the input is. *)

Lemma drop_while_length {A} (p : A → bool) l :
  length (drop_while p l) ≤ length l.
Proof. apply suffix_length, drop_while_suffix. Qed.

Lemma strip_prefix_length p s rest :
  strip_prefix p s = Some rest → length s = length p + length rest.
Proof.
  revert s. induction p as [|a p IH]; intros [|b s]; simpl; try done.
  - by intros [= <-].
  - by intros [= <-].
  - destruct (a =? b)%N; [|done]. intros H%IH. lia.
Qed.

Lemma decode_uXXXX_length s uni rest :
  decode_uXXXX s = Some (uni, rest) → length s = 4 + length rest.
Proof.
  unfold decode_uXXXX. repeat case_match; try done. by intros [= _ <-].
Qed.

Ltac length_facts :=
  repeat match goal with
    | H : decode_uXXXX _ = Some _ |- _ => apply decode_uXXXX_length in H
    | H : strip_prefix _ _ = Some _ |- _ => apply strip_prefix_length in H
    end;
  repeat match goal with
    | |- context [length (drop_while ?p ?l)] =>
        lazymatch goal with
        | _ : length (drop_while p l) ≤ length l |- _ => fail
        | _ => pose proof (drop_while_length p l)
        end
    | _ : context [length (drop_while ?p ?l)] |- _ =>
        lazymatch goal with
        | _ : length (drop_while p l) ≤ length l |- _ => fail
        | _ => pose proof (drop_while_length p l)
        end
    end;
  cbn [length] in *.

Lemma remove_fence_loop_fuels fence f1 f2 s :
  fence ≠ [] → length s ≤ f1 → length s ≤ f2 →
  remove_fence_loop f1 fence s = remove_fence_loop f2 fence s.
Proof.
  intros Hfence. revert f2 s.
  induction f1 as [|f1 IH]; intros [|f2] [|c s] H1 H2; cbn [length] in *;
    try done; try lia.
  cbn [remove_fence_loop]. destruct (strip_prefix fence (c :: s)) eqn:E.
  - apply IH; destruct fence; [done| |done|]; length_facts; lia.
  - f_equal. apply IH; lia.
Qed.

Lemma remove_fence_loop_fuel fence fuel s :
  fence ≠ [] → length s ≤ fuel →
  remove_fence_loop fuel fence s = remove_fence fence s.
Proof. intros. by apply remove_fence_loop_fuels. Qed.

Lemma scanstring_loop_fuels f1 f2 s chunks :
  length s ≤ f1 → length s ≤ f2 →
  scanstring_loop f1 s chunks = scanstring_loop f2 s chunks.
Proof.
  revert f2 s chunks.
  induction f1 as [|f1 IH]; intros [|f2] [|c s] chunks H1 H2;
    cbn [length] in *; try done; try lia.
  cbn [scanstring_loop].
  repeat case_match; try done; apply IH; length_facts; lia.
Qed.

Lemma scanstring_loop_fuel fuel s :
  length s ≤ fuel → scanstring_loop fuel s [] = scanstring s.
Proof. intros. by apply scanstring_loop_fuels. Qed.

Lemma scanstring_loop_consumes fuel s chunks v rest :
  scanstring_loop fuel s chunks = Ok (v, rest) → length rest < length s.
Proof.
  revert s chunks. induction fuel as [|fuel IH]; intros [|c s] chunks;
    cbn [scanstring_loop]; try done.
  repeat case_match; try done;
    try (intros [= _ <-]; cbn [length]; lia);
    intros Hrec%IH; length_facts; lia.
Qed.

Section containers_fuel.
Context (scan : str → res (json * str)) (Hscan : consuming scan).
Context (Hnil : scan [] = Raise JSONDecodeError).

Lemma array_loop_fuels f1 f2 s values :
  length s ≤ f1 → length s ≤ f2 →
  array_loop scan f1 s values = array_loop scan f2 s values.
Proof using Hscan Hnil.
  revert f2 s values.
  induction f1 as [|f1 IH]; intros [|f2] s values H1 H2;
    cbn [array_loop]; try done.
  - destruct s; [by rewrite Hnil | cbn [length] in *; lia].
  - destruct s; [by rewrite Hnil | cbn [length] in *; lia].
  - destruct (scan s) as [[v r]|] eqn:E; [|done]. apply Hscan in E.
    pose proof (drop_while_length is_json_ws r) as Hr. fold (skip_ws r) in Hr.
    destruct (skip_ws r) as [|c rest]; [done|].
    repeat case_match; try done. apply IH; unfold skip_ws; length_facts; lia.
Qed.

Lemma array_loop_consumes fuel s values v rest :
  array_loop scan fuel s values = Ok (v, rest) → length rest < length s.
Proof using Hscan.
  revert s values. induction fuel as [|fuel IH]; intros s values;
    cbn [array_loop]; [done|].
  destruct (scan s) as [[v' r]|] eqn:E; [|done]. apply Hscan in E.
  pose proof (drop_while_length is_json_ws r) as Hr. fold (skip_ws r) in Hr.
  destruct (skip_ws r) as [|c r']; [done|].
  repeat case_match; try done.
  - intros [= _ <-]. cbn [length] in *. lia.
  - intros Hrec%IH. unfold skip_ws in Hrec. length_facts. lia.
Qed.

Lemma parse_array_consumes s v rest :
  parse_array scan s = Ok (v, rest) → length rest < length s.
Proof using Hscan.
  unfold parse_array.
  pose proof (drop_while_length is_json_ws s) as Hs. fold (skip_ws s) in Hs.
  destruct (skip_ws s) as [|c r]; [done|]. case_match.
  - intros [= _ <-]. cbn [length] in *. lia.
  - intros Hrec%array_loop_consumes. lia.
Qed.

Lemma object_loop_fuels f1 f2 s pairs :
  length s ≤ f1 → length s ≤ f2 →
  object_loop scan f1 s pairs = object_loop scan f2 s pairs.
Proof using Hscan.
  revert f2 s pairs.
  induction f1 as [|f1 IH]; intros [|f2] [|c s] pairs H1 H2;
    cbn [length] in *; try done; try lia.
  cbn [object_loop]. case_match; [|done].
  destruct (scanstring s) as [[key r]|] eqn:Ek; [|done].
  apply scanstring_loop_consumes in Ek.
  pose proof (drop_while_length is_json_ws r) as Hr. fold (skip_ws r) in Hr.
  destruct (skip_ws r) as [|c1 r1]; [done|]. case_match; [|done].
  pose proof (drop_while_length is_json_ws r1) as Hr1. fold (skip_ws r1) in Hr1.
  destruct (scan (skip_ws r1)) as [[v r2]|] eqn:Ev; [|done]. apply Hscan in Ev.
  pose proof (drop_while_length is_json_ws r2) as Hr2. fold (skip_ws r2) in Hr2.
  destruct (skip_ws r2) as [|c2 r3]; [done|].
  repeat case_match; try done.
  apply IH; unfold skip_ws; length_facts; lia.
Qed.

Lemma object_loop_consumes fuel s pairs v rest :
  object_loop scan fuel s pairs = Ok (v, rest) → length rest < length s.
Proof using Hscan.
  revert s pairs. induction fuel as [|fuel IH]; intros [|c s] pairs;
    cbn [object_loop]; try done.
  case_match; [|done].
  destruct (scanstring s) as [[key r]|] eqn:Ek; [|done].
  apply scanstring_loop_consumes in Ek.
  pose proof (drop_while_length is_json_ws r) as Hr. fold (skip_ws r) in Hr.
  destruct (skip_ws r) as [|c1 r1]; [done|]. case_match; [|done].
  pose proof (drop_while_length is_json_ws r1) as Hr1. fold (skip_ws r1) in Hr1.
  destruct (scan (skip_ws r1)) as [[v' r2]|] eqn:Ev; [|done]. apply Hscan in Ev.
  pose proof (drop_while_length is_json_ws r2) as Hr2. fold (skip_ws r2) in Hr2.
  destruct (skip_ws r2) as [|c2 r3]; [done|].
  repeat case_match; try done.
  - intros [= _ <-]. cbn [length] in *. lia.
  - intros Hrec%IH. unfold skip_ws in Hrec. length_facts. lia.
Qed.

Lemma parse_object_consumes s v rest :
  parse_object scan s = Ok (v, rest) → length rest < length s.
Proof using Hscan.
  unfold parse_object.
  pose proof (drop_while_length is_json_ws s) as Hs. fold (skip_ws s) in Hs.
  destruct (skip_ws s) as [|c r]; [done|]. case_match.
  - intros [= _ <-]. cbn [length] in *. lia.
  - intros Hrec%object_loop_consumes. lia.
Qed.
End containers_fuel.

Lemma span_digits_length s ds rest :
  span_digits s = (ds, rest) → length s = length ds + length rest.
Proof.
  revert ds rest. induction s as [|c s IH]; intros ds rest; cbn [span_digits].
  - by intros [= <- <-].
  - destruct (is_digit c); [|by intros [= <- <-]].
    destruct (span_digits s) as [ds' r]. intros [= <- <-].
    cbn [length]. by rewrite (IH ds' r).
Qed.

Lemma match_fraction_length s frac rest :
  match_fraction s = (frac, rest) → length s = length frac + length rest.
Proof.
  unfold match_fraction. destruct s as [|c s]; [by intros [= <- <-]|].
  destruct (c =? ch ".")%N; [|by intros [= <- <-]].
  destruct (span_digits s) as [[|d ds] r] eqn:E; intros [= <- <-]; [done|].
  apply span_digits_length in E. cbn [length] in *. lia.
Qed.

Lemma match_exponent_length s exp rest :
  match_exponent s = (exp, rest) → length s = length exp + length rest.
Proof.
  unfold match_exponent. destruct s as [|c s]; [by intros [= <- <-]|].
  destruct ((c =? ch "e") || (c =? ch "E"))%N; [|by intros [= <- <-]].
  destruct (match s with
            | [] => _
            | d :: r => _
            end) as [sign s'] eqn:Es.
  assert (length s = length sign + length s') as Hs.
  { destruct s as [|d r]; [by injection Es as <- <-|].
    destruct ((d =? ch "-") || (d =? ch "+"))%N; by injection Es as <- <-. }
  destruct (span_digits s') as [[|d ds] r] eqn:E; intros [= <- <-]; [done|].
  apply span_digits_length in E.
  cbn [length] in *. rewrite length_app. cbn [length]. lia.
Qed.

Lemma match_number_consumes lim : consuming (match_number lim).
Proof.
  intros s v rest. unfold match_number.
  destruct (match_sign s) as [sign s1] eqn:E1.
  assert (length s1 ≤ length s) as H1.
  { unfold match_sign in E1. destruct s as [|c s]; [by injection E1 as <- <-|].
    destruct (c =? ch "-")%N; injection E1 as <- <-; cbn [length]; lia. }
  destruct (match_integer s1) as [[digits s2]|] eqn:E2; [|done].
  assert (length s2 < length s1) as H2.
  { unfold match_integer in E2. destruct s1 as [|c s1]; [done|].
    destruct (c =? ch "0")%N; [injection E2 as <- <-; cbn [length]; lia|].
    destruct (is_digit c); [|done].
    destruct (span_digits s1) as [ds r] eqn:E. injection E2 as <- <-.
    apply span_digits_length in E. cbn [length]. lia. }
  destruct (match_fraction s2) as [frac s3] eqn:E3.
  apply match_fraction_length in E3.
  destruct (match_exponent s3) as [exp s4] eqn:E4.
  apply match_exponent_length in E4.
  repeat case_match; try done; intros [= _ <-]; lia.
Qed.

Lemma match_constant_consumes table s v rest :
  Forall (λ entry, entry.1 ≠ []) table →
  match_constant table s = Some (v, rest) → length rest < length s.
Proof.
  induction 1 as [|[name value] table Hname _ IH]; cbn [match_constant]; [done|].
  destruct (strip_prefix name s) as [r|] eqn:E; [|done].
  intros [= _ <-]. apply strip_prefix_length in E.
  destruct name; [done|]. cbn [length] in E. lia.
Qed.

Lemma scan_once_nil lim depth : scan_once lim depth [] = Raise JSONDecodeError.
Proof. by destruct depth. Qed.

(** A successful scan has read at least one code point. *)
Lemma scan_once_consuming lim depth : consuming (scan_once lim depth).
Proof.
  induction depth as [|depth IH]; intros [|c s] v rest; try done.
  - cbn [scan_once]. repeat case_match; try done.
    + intros [= _ <-]. subst.
      match goal with H : scanstring _ = Ok _ |- _ =>
        apply scanstring_loop_consumes in H end. cbn [length]. lia.
    + intros [= ->].
      match goal with H : match_constant _ _ = Some _ |- _ =>
        apply match_constant_consumes in H; [done|] end.
      by repeat constructor.
    + apply match_number_consumes.
  - cbn [scan_once]. repeat case_match; try done.
    + intros [= _ <-]. subst.
      match goal with H : scanstring _ = Ok _ |- _ =>
        apply scanstring_loop_consumes in H end. cbn [length]. lia.
    + intros Hrec%parse_object_consumes; [|done]. cbn [length]. lia.
    + intros Hrec%parse_array_consumes; [|done]. cbn [length]. lia.
    + intros [= ->].
      match goal with H : match_constant _ _ = Some _ |- _ =>
        apply match_constant_consumes in H; [done|] end.
      by repeat constructor.
    + apply match_number_consumes.
Qed.

(** The container loops of the decoder compute the same with any fuel not
    below the length of their input. *)
Lemma array_loop_fuel lim depth fuel s values :
  length s ≤ fuel →
  array_loop (scan_once lim depth) fuel s values
  = array_loop (scan_once lim depth) (length s) s values.
Proof.
  intros. apply array_loop_fuels;
    [apply scan_once_consuming | apply scan_once_nil | done..].
Qed.

Lemma object_loop_fuel lim depth fuel s pairs :
  length s ≤ fuel →
  object_loop (scan_once lim depth) fuel s pairs
  = object_loop (scan_once lim depth) (length s) s pairs.
Proof.
  intros. apply object_loop_fuels; [apply scan_once_consuming | done..].
Qed.

(** ** The embedded library functions on examples *)

Example strip_example : strip (lit "  a b  ") = lit "a b".
Proof. by vm_compute. Qed.

Example lower_ascii : lower (lit "Reverb FX 2") = lit "reverb fx 2".
Proof. by vm_compute. Qed.

(** Capital sigma becomes the final form after a cased letter at the end of
    a word, and the ordinary form elsewhere. *)
Example lower_final_sigma :
  lower [0x39F; 0x394; 0x39F; 0x3A3; 0x20; 0x3A3; 0x39F]%N
  = [0x3BF; 0x3B4; 0x3BF; 0x3C2; 0x20; 0x3C3; 0x3BF]%N.
Proof. by vm_compute. Qed.

Example lower_dotted_capital_i : lower [0x130]%N = [0x69; 0x307]%N.
Proof. by vm_compute. Qed.

Example remove_fence_example :
  remove_fence (lit "```") (remove_fence (lit "```json") (lit "```json  [1]```"))
  = lit "[1]".
Proof. by vm_compute. Qed.

(** An empty pair of quotation marks matches nothing; its second mark then
    opens the next match. *)
Example findall_quoted_example :
  findall_quoted (litq "a 'b', '' and 'c d'") = [lit "b"; lit " and "].
Proof. by vm_compute. Qed.

Example json_loads_nested :
  json_loads default_limits (litq " {'k': [1, -2.5e3, true, null, 'a\u00e9']} ")
  = Ok (JDict [(lit "k",
                JList [JInt (lit "1"); JFloat (lit "-2.5e3"); JBool true;
                       JNull; JStr [0x61; 0xE9]%N])]).
Proof. by vm_compute. Qed.

Example json_loads_surrogate_pair :
  json_loads default_limits (litq "'\ud83d\ude00'") = Ok (JStr [0x1F600%N]).
Proof. by vm_compute. Qed.

Example json_loads_trailing_comma :
  json_loads default_limits (lit "[1,]") = Raise JSONDecodeError.
Proof. by vm_compute. Qed.

Example json_loads_too_deep :
  json_loads {| recursion_depth := 2; int_max_str_digits := 4300 |} (lit "[[[]]]")
  = Raise RecursionError.
Proof. by vm_compute. Qed.

Example json_loads_long_integer :
  json_loads {| recursion_depth := 990; int_max_str_digits := 3 |} (lit "[1234]")
  = Raise ValueError.
Proof. by vm_compute. Qed.

(** A payload wrapped in a fenced block: the fences go, the one-letter
    entry is filtered. *)
Example parse_fenced :
  parse default_limits (litq "```json
['a','bb']
```") = Ok [lit "bb"].
Proof. by vm_compute. Qed.

(** The base list of the first category is already normalized; merging it
    with nothing returns it. *)
Example merge_daw_keywords : merge daw_keywords [] = daw_keywords.
Proof. by vm_compute. Qed.

(** * The claims about the merged list *)

(** C2, as stated, fails on the script's own base list: [main] merges
    [arranger_keywords], whose entry 'C' comes out as 'c', a string of
    trimmed length 1 — [deduplicate] has no length filter. *)
Lemma merge_keeps_single_letter :
  lit "c" ∈ merge arranger_keywords [] ∧ length (strip (lit "c")) = 1.
Proof.
  split; [|reflexivity].
  apply (bool_decide_unpack _). vm_compute. exact I.
Qed.

(** C2, amended: [merge B E] contains no empty string, and no string that
    is empty once trimmed; every entry is the lowercased, trimmed form of an
    entry of [B] or [E]; and a base keyword whose lowercased, trimmed form
    has length 1 is kept in that form, not dropped. *)
Theorem merge_entries (B E : list str) :
  (∀ x, x ∈ merge B E →
        x ≠ [] ∧ strip x ≠ [] ∧ ∃ kw, kw ∈ B ++ E ∧ x = normalize kw)
  ∧ (∀ b, b ∈ B → length (normalize b) = 1 → normalize b ∈ merge B E).
Proof.
  unfold merge. split.
  - intros x (Hx & kw & Hkw & ->)%deduplicate_elem_of.
    rewrite normalize_strip_fixed. eauto.
  - intros b Hb Hlen. apply deduplicate_elem_of. split.
    + intros Hnil. by rewrite Hnil in Hlen.
    + exists b. split; [|done]. apply elem_of_app. by left.
Qed.

Lemma merge_entries_witness :
  (lit "c" ≠ [] ∧ strip (lit "c") ≠ []
   ∧ ∃ kw, kw ∈ [lit "C"] ++ [lit "do"] ∧ lit "c" = normalize kw)
  ∧ normalize (lit "C") ∈ merge [lit "C"] [lit "do"].
Proof.
  split.
  - apply (proj1 (merge_entries [lit "C"] [lit "do"])).
    apply (bool_decide_unpack _). vm_compute. exact I.
  - apply (proj2 (merge_entries [lit "C"] [lit "do"])).
    + repeat constructor.
    + reflexivity.
Defined.

(** C3: [merge B E] is the deduplicated base list followed by those entries
    of the deduplicated expansion that the base list does not already
    provide; both parts keep the order of their source, so the base keywords
    come first in their original relative order and the new ones follow in
    the order they were produced. On the specification's example this gives
    [track, fx, reverb, echo]. *)
Theorem merge_base_first :
  (∀ B E : list str,
     merge B E
     = deduplicate B ++ filter (λ x, x ∉ deduplicate B) (deduplicate E)
     ∧ deduplicate B `sublist_of` normalize <$> B
     ∧ deduplicate E `sublist_of` normalize <$> E)
  ∧ merge [lit "track"; lit "fx"]
          [lit "track"; lit "reverb"; lit "fx"; lit "echo"]
    = [lit "track"; lit "fx"; lit "reverb"; lit "echo"].
Proof.
  split; [|by vm_compute].
  intros B E. unfold merge. rewrite !deduplicate_new_entries. split_and!.
  - rewrite new_entries_app. f_equal.
    rewrite <- new_entries_filter. by rewrite !app_nil_l, app_nil_r.
  - apply new_entries_sublist.
  - apply new_entries_sublist.
Qed.

(** C4: no two entries of [merge B E] are equal after lowercasing and
    trimming. *)
Theorem merge_no_duplicates (B E : list str) : NoDup (normalize <$> merge B E).
Proof.
  unfold merge. destruct (deduplicate_output (B ++ E)) as (Hn & Hd & _).
  by rewrite fmap_normalize_fixed.
Qed.

(** C5: every base keyword whose lowercased, trimmed form has length at
    least 2 appears, in that form, in [merge B E]. *)
Theorem merge_keeps_base (B E : list str) (b : str) :
  b ∈ B → 2 ≤ length (normalize b) → normalize b ∈ merge B E.
Proof.
  intros Hb Hlen. apply deduplicate_elem_of. split.
  - intros Hnil. rewrite Hnil in Hlen. simpl in Hlen. lia.
  - exists b. split; [|done]. apply elem_of_app. by left.
Qed.

Lemma merge_keeps_base_witness :
  normalize (lit " VI ") ∈ merge [lit "chord"; lit " VI "] [lit "vi"; lit "six"].
Proof.
  apply merge_keeps_base.
  - repeat constructor.
  - vm_compute. lia.
Defined.

(** C8, as stated, fails: the one-entry list ['VI'] satisfies the
    KeywordList invariant, and merging it with itself yields ['vi']. *)
Lemma merge_self_changes_case :
  keyword_list [lit "VI"] ∧ merge [lit "VI"] [lit "VI"] ≠ [lit "VI"].
Proof.
  split; [split|].
  - repeat constructor.
  - apply (bool_decide_unpack _). vm_compute. exact I.
  - by vm_compute.
Qed.

(** C8, amended: merging is idempotent on lists whose entries are already
    lowercased and trimmed, non-empty and pairwise distinct: for such a list
    [L], [merge L L = L]. The lists [deduplicate] returns are of this kind,
    so deduplicating the concatenation of a deduplicated list with itself
    returns that list. *)
Theorem merge_idempotent :
  (∀ L : list str,
     Forall normalized L → NoDup L → [] ∉ L → merge L L = L)
  ∧ (∀ X : list str,
       merge (deduplicate X) (deduplicate X) = deduplicate X).
Proof.
  assert (∀ L : list str,
            Forall normalized L → NoDup L → [] ∉ L → merge L L = L) as Hfix.
  { intros L Hn Hd Hne. unfold merge.
    rewrite deduplicate_new_entries, new_entries_app.
    rewrite new_entries_fixed by (try done; intros x _; apply not_elem_of_nil).
    rewrite new_entries_seen; [by rewrite app_nil_r|].
    intros kw Hkw. right. simpl.
    rewrite Forall_forall in Hn. by rewrite (Hn kw Hkw). }
  split; [done|].
  intros X. destruct (deduplicate_output X) as (?&?&?). by apply Hfix.
Qed.

Lemma merge_idempotent_witness :
  merge [lit "track"; lit "fx"] [lit "track"; lit "fx"] = [lit "track"; lit "fx"].
Proof.
  apply (proj1 merge_idempotent).
  - repeat constructor.
  - apply (bool_decide_unpack _). vm_compute. exact I.
  - apply (bool_decide_unpack _). vm_compute. exact I.
Defined.

(** C10: every element of [deduplicate L] is the lowercased, trimmed form
    of the first element of [L] in its equivalence class (the elements that
    lowercase and trim to the same string); the casing and the surrounding
    whitespace of that first element are not kept. *)
Theorem deduplicate_first_occurrence (L : list str) (x : str) :
  x ∈ deduplicate L →
  ∃ i kw,
    L !! i = Some kw ∧ x = normalize kw ∧ normalize kw = normalize x
    ∧ ∀ j kw', j < i → L !! j = Some kw' → normalize kw' ≠ normalize x.
Proof.
  rewrite deduplicate_new_entries. intros Hx.
  assert (normalize x = x) as Hnx.
  { apply elem_of_new_entries in Hx as (_ & _ & kw & _ & ->).
    apply normalize_idem. }
  destruct (new_entries_first _ _ _ Hx) as (i & kw & Hi & Hkw & Hfirst).
  exists i, kw. rewrite Hnx. eauto.
Qed.

Lemma deduplicate_first_occurrence_witness :
  deduplicate [lit " Reverb"; lit "echo"; lit "REVERB"] = [lit "reverb"; lit "echo"]
  ∧ ∃ i kw,
      [lit " Reverb"; lit "echo"; lit "REVERB"] !! i = Some kw
      ∧ lit "reverb" = normalize kw ∧ normalize kw = normalize (lit "reverb")
      ∧ ∀ j kw', j < i →
          [lit " Reverb"; lit "echo"; lit "REVERB"] !! j = Some kw' →
          normalize kw' ≠ normalize (lit "reverb").
Proof.
  split; [by vm_compute|].
  apply deduplicate_first_occurrence.
  apply (bool_decide_unpack _). vm_compute. exact I.
Defined.

(** * The claims about the parser *)







(** C7: [expand_keywords] returns a list whatever reply it is given — no
    exception leaves it, whether the request failed, the content is absent
    or the payload is malformed. For a payload the list is what the strict
    path makes of a parsed array, or what the fallback extracts when
    [json.loads] raises [JSONDecodeError], or else empty; and the empty
    payload yields the empty list, an ordinary result. *)
Theorem expand_keywords_total :
  (∀ lim reply, ∃ keywords, expand_keywords lim reply = Ok keywords)
  ∧ (∀ lim payload,
       (∃ items, json_loads lim (clean payload) = Ok (JList items)
                 ∧ parse lim payload = Ok (strict_normalize items))
       ∨ (json_loads lim (clean payload) = Raise JSONDecodeError
          ∧ parse lim payload = Ok (fallback_extract (clean payload)))
       ∨ parse lim payload = Ok [])
  ∧ (∀ lim, parse lim [] = Ok []).
Proof.
  split_and!.
  - intros lim reply. unfold expand_keywords.
    destruct (expand_keywords_try lim reply); eauto.
  - apply parse_cases.
  - intros lim. apply (parse_decode_error lim []).
    change (clean []) with (@nil N). unfold json_loads. cbn [head].
    rewrite bool_decide_eq_false_2 by done.
    change (skip_ws []) with (@nil N).
    by rewrite scan_once_nil.
Qed.

(** C9: when the stripped payload is valid JSON and the value is not an
    array, the parser returns the empty list; the quoted substrings are not
    looked for, although the fallback would find some — in an object with
    string members, or in a bare string. *)
Theorem parse_non_array :
  (∀ lim payload v,
     json_loads lim (clean payload) = Ok v → (∀ items, v ≠ JList items) →
     parse lim payload = Ok [])
  ∧ (json_loads default_limits (clean (litq "{'aa': 'bb'}"))
     = Ok (JDict [(lit "aa", JStr (lit "bb"))])
     ∧ parse default_limits (litq "{'aa': 'bb'}") = Ok []
     ∧ fallback_extract (clean (litq "{'aa': 'bb'}")) = [lit "aa"; lit "bb"])
  ∧ (json_loads default_limits (clean (litq "'hello'")) = Ok (JStr (lit "hello"))
     ∧ parse default_limits (litq "'hello'") = Ok []
     ∧ fallback_extract (clean (litq "'hello'")) = [lit "hello"])
  ∧ (json_loads default_limits (clean (lit "42")) = Ok (JInt (lit "42"))
     ∧ parse default_limits (lit "42") = Ok []).
Proof.
  split; [intros lim payload v; apply parse_not_list|].
  split_and!; by vm_compute.
Qed.

Lemma parse_non_array_witness :
  parse default_limits (litq "{'track': ['reverb', 'echo']}") = Ok [].
Proof.
  apply (proj1 parse_non_array default_limits
           (litq "{'track': ['reverb', 'echo']}")
           (JDict [(lit "track", JList [JStr (lit "reverb"); JStr (lit "echo")])])).
  - by vm_compute.
  - done.
Defined.

(** * Further properties of [deduplicate] *)

Lemma new_entries_fmap_normalize P l :
  new_entries P (normalize <$> l) = new_entries P l.
Proof.
  revert P. induction l as [|kw l IH]; intros P; [done|].
  rewrite fmap_cons. cbn [new_entries]. rewrite normalize_idem.
  destruct (decide _); by rewrite IH.
Qed.

Lemma new_entries_deduplicated P l :
  new_entries P (deduplicate l) = new_entries P l.
Proof.
  rewrite <- (app_nil_r P), !new_entries_filter. f_equal.
  rewrite <- deduplicate_new_entries.
  destruct (deduplicate_output l) as (?&?&?).
  rewrite deduplicate_fixed by done. apply deduplicate_new_entries.
Qed.

(** X1: [deduplicate] is idempotent, and lowercasing and trimming the
    keywords beforehand does not change its result. *)
Theorem deduplicate_idempotent (l : list str) :
  deduplicate (deduplicate l) = deduplicate l
  ∧ deduplicate (normalize <$> l) = deduplicate l.
Proof.
  split.
  - destruct (deduplicate_output l) as (?&?&?). by apply deduplicate_fixed.
  - rewrite !deduplicate_new_entries. apply new_entries_fmap_normalize.
Qed.

(** X2: deduplicating the base list and the expansion separately before
    they are combined gives the same merged list. *)
Theorem merge_deduplicated_inputs (base expanded : list str) :
  merge (deduplicate base) (deduplicate expanded) = merge base expanded.
Proof.
  unfold merge. rewrite !deduplicate_new_entries, !new_entries_app.
  rewrite <- !deduplicate_new_entries.
  rewrite (deduplicate_new_entries (deduplicate base)).
  rewrite !new_entries_deduplicated, <- deduplicate_new_entries.
  done.
Qed.

Lemma drop_while_nil_iff {A} (p : A → bool) l :
  drop_while p l = [] ↔ Forall (λ x, p x = true) l.
Proof.
  induction l as [|x l IH]; cbn [drop_while]; [by split|].
  destruct (p x) eqn:E.
  - rewrite IH. split; [by constructor | by inversion 1].
  - split; [done|]. inversion 1. congruence.
Qed.

(** A string strips to nothing exactly when it is all whitespace. *)
Lemma strip_nil_iff s : strip s = [] ↔ Forall (λ c, isspace c = true) s.
Proof.
  split.
  - intros H. apply drop_while_nil_iff in H.
    assert (rstrip s = []) as Hr.
    { destruct (last (rstrip s)) as [x|] eqn:E; [|by apply last_None].
      pose proof (rstrip_last _ _ E) as Hx.
      apply last_Some_elem_of in E. rewrite Forall_forall in H.
      rewrite (H x E) in Hx. done. }
    unfold rstrip in Hr. apply (f_equal reverse) in Hr.
    rewrite reverse_involutive, reverse_nil in Hr.
    apply drop_while_nil_iff in Hr. by rewrite Forall_reverse in Hr.
  - intros H. unfold strip, rstrip.
    assert (drop_while isspace (reverse s) = []) as ->.
    { apply drop_while_nil_iff. by rewrite Forall_reverse. }
    done.
Qed.

(** X3: [deduplicate] returns the empty list exactly when every keyword it
    is given is empty or made of whitespace only. *)
Theorem deduplicate_nil_iff (l : list str) :
  deduplicate l = [] ↔ Forall (λ kw, Forall (λ c, isspace c = true) kw) l.
Proof.
  rewrite deduplicate_new_entries. rewrite Forall_forall. split.
  - intros Hnil kw Hkw. apply strip_nil_iff. apply (proj2 (normalize_nil_iff kw)).
    destruct (decide (normalize kw = [])) as [|Hne]; [done|]. exfalso.
    assert (normalize kw ∈ new_entries [] l) as Hin.
    { apply elem_of_new_entries. split_and!; [done|apply not_elem_of_nil|eauto]. }
    rewrite Hnil in Hin. by apply elem_of_nil in Hin.
  - intros Hall. apply new_entries_seen. intros kw Hkw. left.
    apply (proj1 (normalize_nil_iff kw)). apply strip_nil_iff. exact (Hall kw Hkw).
Qed.

(** * Further properties of the parser *)

(** X4: when the stripped payload parses as an array, the result is made of
    the strings among its top-level elements — lowercased, trimmed, and kept
    when longer than one character, in their order. Numbers, [null], objects
    and nested arrays are skipped, not searched. *)
Theorem parse_array_payload (lim : limits) (payload : str) (items : list json) :
  json_loads lim (clean payload) = Ok (JList items) →
  parse lim payload
  = Ok (filter (λ kw, 1 < length kw) (normalize <$> json_strings items)).
Proof.
  intros H. rewrite (parse_strict _ _ _ H). by rewrite strict_normalize_spec.
Qed.

Lemma parse_array_payload_witness :
  parse default_limits
    (litq "['Reverb ', ['nested'], 7, null, 'x', {'k': 'vv'}, 'Echo']")
  = Ok [lit "reverb"; lit "echo"].
Proof.
  apply (parse_array_payload default_limits
           (litq "['Reverb ', ['nested'], 7, null, 'x', {'k': 'vv'}, 'Echo']")
           [JStr (lit "Reverb "); JList [JStr (lit "nested")]; JInt (lit "7");
            JNull; JStr (lit "x"); JDict [(lit "k", JStr (lit "vv"))];
            JStr (lit "Echo")]).
  by vm_compute.
Defined.

(** ** Fences *)

Lemma remove_fence_nil fence : remove_fence fence [] = [].
Proof. done. Qed.

Lemma remove_fence_cons fence c s :
  fence ≠ [] →
  remove_fence fence (c :: s)
  = match strip_prefix fence (c :: s) with
    | Some after => remove_fence fence (drop_while isspace after)
    | None => c :: remove_fence fence s
    end.
Proof.
  intros Hfence. unfold remove_fence at 1. cbn [length remove_fence_loop].
  destruct (strip_prefix fence (c :: s)) as [after|] eqn:E.
  - apply remove_fence_loop_fuel; [done|].
    apply strip_prefix_length in E. destruct fence; [done|].
    pose proof (drop_while_length isspace after). cbn [length] in *. lia.
  - f_equal.
Qed.

Lemma strip_prefix_head_ne f fence c s :
  f ≠ c → strip_prefix (f :: fence) (c :: s) = None.
Proof. intros H. cbn [strip_prefix]. by destruct (N.eqb_spec f c). Qed.

(** Text without the first character of the fence passes unchanged. *)
Lemma remove_fence_skip f fence before s :
  f ∉ before →
  remove_fence (f :: fence) (before ++ s) = before ++ remove_fence (f :: fence) s.
Proof.
  induction before as [|c before IH]; [done|].
  intros [Hc Hb]%not_elem_of_cons. cbn [app].
  rewrite remove_fence_cons by done.
  rewrite strip_prefix_head_ne by done. by rewrite IH.
Qed.

Lemma remove_fence_free f fence s :
  f ∉ s → remove_fence (f :: fence) s = s.
Proof.
  intros H. rewrite <- (app_nil_r s) at 1.
  rewrite remove_fence_skip by done. by rewrite app_nil_r.
Qed.

Lemma occurs_in_cons p c s :
  occurs_in p (c :: s) → (∃ after, c :: s = p ++ after) ∨ occurs_in p s.
Proof.
  intros ([|b before] & after & H).
  - left. by exists after.
  - right. injection H as _ ->. by exists before, after.
Qed.

Lemma strip_infix s : ∃ before after, s = before ++ strip s ++ after.
Proof.
  destruct (rstrip_prefix s) as [after Ha].
  destruct (lstrip_suffix (rstrip s)) as [before Hb].
  exists before, after. unfold strip. rewrite app_assoc, <- Hb. exact Ha.
Qed.

Lemma occurs_in_strip p s : occurs_in p (strip s) → occurs_in p s.
Proof.
  intros (b & a & H). destruct (strip_infix s) as (b' & a' & Hs).
  exists (b' ++ b), (a ++ a'). rewrite Hs at 1. rewrite H.
  by rewrite <- !app_assoc.
Qed.

(** Removing the plain fence never leaves two backticks at the head of a
    text that did not start with two. *)
Lemma remove_plain_fence_head t :
  (∀ u, t ≠ backtick :: backtick :: u) →
  ∀ u, remove_fence (lit "```") t ≠ backtick :: backtick :: u.
Proof.
  intros Ht u. change (lit "```") with [backtick; backtick; backtick].
  destruct t as [|c t]; [done|].
  destruct (decide (c = backtick)) as [->|Hc].
  - destruct t as [|d t]; [by vm_compute|].
    assert (d ≠ backtick) as Hd by (intros ->; by apply (Ht t)).
    rewrite remove_fence_cons by done. cbn [strip_prefix].
    rewrite N.eqb_refl. destruct (N.eqb_spec backtick d) as [E|_]; [congruence|].
    rewrite remove_fence_cons by done.
    rewrite strip_prefix_head_ne by done. congruence.
  - rewrite remove_fence_cons by done.
    rewrite strip_prefix_head_ne by done. congruence.
Qed.

Lemma remove_plain_fence_clear n : ∀ s,
  length s ≤ n → ¬ occurs_in (lit "```") (remove_fence (lit "```") s).
Proof.
  change (lit "```") with [backtick; backtick; backtick].
  induction n as [|n IH]; intros [|c s] Hlen; cbn [length] in Hlen; try lia.
  - intros (b & a & H). by destruct b.
  - intros (b & a & H). by destruct b.
  - rewrite remove_fence_cons by done.
    destruct (strip_prefix _ (c :: s)) as [after|] eqn:E.
    + apply IH. apply strip_prefix_length in E.
      pose proof (drop_while_length isspace after). cbn [length] in *. lia.
    + intros [[after H]|H]%occurs_in_cons.
      * injection H as -> H.
        apply (remove_plain_fence_head s) in H; [done|].
        intros u ->. cbn [strip_prefix] in E. by rewrite !N.eqb_refl in E.
      * revert H. apply IH. lia.
Qed.

(** X5: the text handed to [json.loads] and to the fallback holds no
    triple backtick, whatever the payload. *)
Theorem clean_no_fence (payload : str) : ¬ occurs_in (lit "```") (clean payload).
Proof.
  unfold clean. intros H%occurs_in_strip. revert H.
  by apply (remove_plain_fence_clear _ _ (le_n _)).
Qed.

Lemma drop_while_split {A} (p : A → bool) l :
  ∃ pre, l = pre ++ drop_while p l ∧ Forall (λ x, p x = true) pre.
Proof.
  induction l as [|x l (pre & Hl & Hpre)]; cbn [drop_while].
  - by exists [].
  - destruct (p x) eqn:E.
    + exists (x :: pre). split; [by rewrite Hl at 1 | by constructor].
    + by exists [].
Qed.

Lemma drop_while_app_stop {A} (p : A → bool) l y k :
  p y = false → drop_while p (l ++ y :: k) = drop_while p l ++ y :: k.
Proof.
  intros Hy. induction l as [|x l IH]; cbn [app drop_while].
  - by rewrite Hy.
  - by destruct (p x).
Qed.

(** Whitespace around a text that starts and ends with something else is
    what [strip] removes. *)
Lemma strip_trimmed_middle before s after x y :
  Forall (λ c, isspace c = true) before →
  Forall (λ c, isspace c = true) after →
  head s = Some x → isspace x = false →
  last s = Some y → isspace y = false →
  strip (before ++ s ++ after) = s.
Proof.
  intros Hb Ha Hx Hxs Hy Hys. unfold strip, rstrip, lstrip.
  rewrite !reverse_app, <- app_assoc.
  rewrite drop_while_app_all by (by apply Forall_reverse).
  apply last_Some in Hy as [s' ->].
  rewrite reverse_snoc. cbn [app drop_while]. rewrite Hys.
  rewrite reverse_cons, reverse_app, !reverse_involutive, <- app_assoc.
  rewrite drop_while_app_all by done.
  by apply (drop_while_id _ _ x).
Qed.

Lemma strip_split s :
  ∃ before after,
    s = before ++ strip s ++ after
    ∧ Forall (λ c, isspace c = true) before
    ∧ Forall (λ c, isspace c = true) after.
Proof.
  destruct (drop_while_split isspace (reverse s)) as (post & Hpost & Hp).
  destruct (drop_while_split isspace (rstrip s)) as (pre & Hpre & Hq).
  exists pre, (reverse post). split_and!; [|done|by apply Forall_reverse].
  unfold strip, lstrip. rewrite app_assoc, <- Hpre. unfold rstrip.
  rewrite <- reverse_app, <- Hpost. by rewrite reverse_involutive.
Qed.

Lemma strip_surround before s after :
  Forall (λ c, isspace c = true) before →
  Forall (λ c, isspace c = true) after →
  strip (before ++ s ++ after) = strip s.
Proof.
  intros Hb Ha. destruct (strip_split s) as (b & a & Hs & Hsb & Hsa).
  destruct (strip s) as [|x m] eqn:E.
  - apply strip_nil_iff. apply strip_nil_iff in E.
    rewrite !Forall_app. done.
  - rewrite Hs.
    replace (before ++ (b ++ (x :: m) ++ a) ++ after)
      with ((before ++ b) ++ (x :: m) ++ (a ++ after))
      by (by rewrite <- !app_assoc).
    destruct (last (x :: m)) as [y|] eqn:Ey; [|by apply last_None in Ey].
    apply (strip_trimmed_middle _ _ _ x y); rewrite ?Forall_app; try done.
    + apply (strip_head s). by rewrite E.
    + apply (strip_last s). by rewrite E.
Qed.

Lemma strip_prefix_app p s : strip_prefix p (p ++ s) = Some s.
Proof.
  induction p as [|a p IH]; [by destruct s|].
  cbn [app strip_prefix]. by rewrite N.eqb_refl.
Qed.

Lemma parse_clean_eq lim p q : clean p = clean q → parse lim p = parse lim q.
Proof.
  intros H. unfold parse, expand_keywords, expand_keywords_try. by rewrite H.
Qed.

Lemma space_not_backtick w :
  Forall (λ c, isspace c = true) w → backtick ∉ w.
Proof.
  intros H Hin. rewrite Forall_forall in H. apply H in Hin.
  by vm_compute in Hin.
Qed.

Lemma clean_plain body : backtick ∉ body → clean body = strip body.
Proof.
  intros H. unfold clean.
  assert (backtick ∉ strip body) as Hs.
  { intros Hin. apply H. eapply elem_of_sublist; [done|apply strip_sublist]. }
  change (lit "```json") with (backtick :: lit "``json").
  change (lit "```") with (backtick :: lit "``").
  rewrite (remove_fence_free _ _ (strip body)) by done.
  rewrite (remove_fence_free _ _ (strip body)) by done. apply strip_idem.
Qed.

(** X6: a payload wrapped in a fenced block — the opening fence with its
    json tag, the closing fence, and any whitespace around and inside — is
    parsed as the text between the fences is, provided that text holds no
    backtick. *)
Theorem parse_fenced_block (lim : limits) (w0 w1 w2 w3 body : str) :
  Forall (λ c, isspace c = true) w0 → Forall (λ c, isspace c = true) w1 →
  Forall (λ c, isspace c = true) w2 → Forall (λ c, isspace c = true) w3 →
  backtick ∉ body →
  parse lim (w0 ++ lit "```json" ++ w1 ++ body ++ w2 ++ lit "```" ++ w3)
  = parse lim body.
Proof.
  intros H0 H1 H2 H3 Hbody. apply parse_clean_eq.
  rewrite (clean_plain body) by done. unfold clean.
  set (X := w1 ++ body ++ w2).
  assert (backtick ∉ X) as HX.
  { unfold X. rewrite !not_elem_of_app.
    split_and!; [by apply space_not_backtick|done|by apply space_not_backtick]. }
  assert (backtick ∉ lstrip X) as HlX.
  { intros Hin. apply HX. destruct (lstrip_suffix X) as [pre ->].
    apply elem_of_app. by right. }
  replace (w0 ++ lit "```json" ++ w1 ++ body ++ w2 ++ lit "```" ++ w3)
    with (w0 ++ (lit "```json" ++ X ++ lit "```") ++ w3)
    by (unfold X; by rewrite <- !app_assoc).
  rewrite (strip_trimmed_middle w0 _ w3 backtick backtick); try done.
  2: { change (lit "```") with ([backtick; backtick] ++ [backtick]).
       rewrite !app_assoc. apply last_snoc. }
  assert (remove_fence (lit "```json") (lit "```json" ++ X ++ lit "```")
          = lstrip X ++ lit "```") as ->.
  { change (lit "```json" ++ X ++ lit "```")
      with (backtick :: (lit "``json" ++ X ++ lit "```")).
    rewrite remove_fence_cons by done.
    change (backtick :: (lit "``json" ++ X ++ lit "```"))
      with (lit "```json" ++ (X ++ lit "```")).
    rewrite strip_prefix_app.
    change (lit "```") with (backtick :: lit "``").
    rewrite drop_while_app_stop by done. fold (lstrip X).
    change (lit "```json") with (backtick :: lit "``json").
    rewrite remove_fence_skip by done. f_equal. }
  assert (remove_fence (lit "```") (lstrip X ++ lit "```") = lstrip X) as ->.
  { change (lit "```") with (backtick :: lit "``").
    rewrite remove_fence_skip by done.
    change (remove_fence (backtick :: lit "``") (backtick :: lit "``"))
      with (@nil N).
    apply app_nil_r. }
  destruct (drop_while_split isspace X) as (pre & HpX & Hpre).
  fold (lstrip X) in HpX.
  rewrite <- (strip_surround pre (lstrip X) []) by done.
  rewrite app_nil_r, <- HpX. unfold X. by apply strip_surround.
Qed.

Lemma parse_fenced_block_witness :
  parse default_limits
    ([0x20%N] ++ lit "```json" ++ [0x0A%N] ++ litq "['Reverb', 'x', 'echo']"
     ++ [0x0A%N] ++ lit "```" ++ [0x0A%N])
  = parse default_limits (litq "['Reverb', 'x', 'echo']").
Proof.
  apply parse_fenced_block; try (by repeat constructor).
  apply (bool_decide_unpack _). vm_compute. exact I.
Defined.

(** ** Exceptions other than [JSONDecodeError] *)

Lemma rstrip_app_keep before s y :
  last before = Some y → isspace y = false →
  rstrip (before ++ s) = before ++ rstrip s.
Proof.
  intros Hy Hys. unfold rstrip. rewrite reverse_app.
  destruct (drop_while_split isspace (reverse s)) as (pre & Hs & Hpre).
  rewrite Hs at 1. rewrite <- app_assoc.
  rewrite drop_while_app_all by done.
  apply last_Some in Hy as [b' ->]. rewrite reverse_snoc.
  rewrite drop_while_app_stop by done.
  rewrite drop_while_idem.
  by rewrite reverse_app, reverse_cons, reverse_involutive.
Qed.

(** A prefix that neither starts nor ends with whitespace and holds no
    backtick survives the cleaning. *)
Lemma clean_keeps_prefix before s x y :
  head before = Some x → isspace x = false →
  last before = Some y → isspace y = false →
  backtick ∉ before →
  ∃ t, clean (before ++ s) = before ++ t.
Proof.
  intros Hx Hxs Hy Hys Hb.
  assert (∀ t, strip (before ++ t) = before ++ rstrip t) as Hstrip.
  { intros t. unfold strip. rewrite (rstrip_app_keep _ _ y) by done.
    apply (drop_while_id _ _ x); [|done].
    destruct before; [done|]. done. }
  unfold clean. rewrite Hstrip.
  change (lit "```json") with (backtick :: lit "``json").
  change (lit "```") with (backtick :: lit "``").
  rewrite !remove_fence_skip by done. rewrite Hstrip. eauto.
Qed.

Lemma last_replicate_S {A} n (x : A) : last (replicate (S n) x) = Some x.
Proof. induction n as [|n IH]; [done|]. exact IH. Qed.

Lemma scan_once_too_deep lim depth s :
  scan_once lim depth (replicate (S depth) (ch "[") ++ s) = Raise RecursionError.
Proof.
  induction depth as [|depth IH]; [done|].
  change (replicate (S (S depth)) (ch "["))
    with (ch "[" :: replicate (S depth) (ch "[")).
  cbn [app scan_once].
  change (ch "[" =? quote)%N with false. change (ch "[" =? ch "{")%N with false.
  change (ch "[" =? ch "[")%N with true. cbn match.
  unfold parse_array. cbn [replicate app skip_ws drop_while].
  change (is_json_ws (ch "[")) with false. cbn match.
  change (ch "[" =? ch "]")%N with false. cbn match.
  cbn [length array_loop].
  change (ch "[" :: replicate depth (ch "[") ++ s)
    with (replicate (S depth) (ch "[") ++ s).
  by rewrite IH.
Qed.

Lemma span_digits_ones n c s :
  is_digit c = false →
  span_digits (replicate n (ch "1") ++ c :: s) = (replicate n (ch "1"), c :: s).
Proof.
  intros Hc. induction n as [|n IH]; cbn [replicate app span_digits].
  - by rewrite Hc.
  - change (is_digit (ch "1")) with true. cbn match. by rewrite IH.
Qed.

(** X7: an exception of [json.loads] other than [JSONDecodeError] empties the
    result, and the quoted substrings of the payload are not looked for. So
    it is with a payload that opens more arrays than the decoder may enter,
    and with an array whose first element is an integer of more digits than
    [int] converts — whatever follows. *)
Theorem parse_decoder_limits (lim : limits) (s : str) :
  parse lim (replicate (S (recursion_depth lim)) (ch "[") ++ s) = Ok []
  ∧ (int_max_str_digits lim ≠ 0 →
     parse lim (lit "[" ++ replicate (S (int_max_str_digits lim)) (ch "1")
                ++ lit "," ++ s) = Ok []).
Proof.
  split.
  - destruct (clean_keeps_prefix
                (replicate (S (recursion_depth lim)) (ch "[")) s
                (ch "[") (ch "[")) as [t Ht]; try done.
    { apply last_replicate_S. }
    { intros [Hin _]%elem_of_replicate. done. }
    apply (parse_other_error _ _ RecursionError); [|done].
    rewrite Ht. unfold json_loads.
    rewrite bool_decide_eq_false_2 by done.
    cbn [replicate app skip_ws drop_while].
    change (is_json_ws (ch "[")) with false. cbn match.
    change (ch "[" :: replicate (recursion_depth lim) (ch "[") ++ t)
      with (replicate (S (recursion_depth lim)) (ch "[") ++ t).
    by rewrite scan_once_too_deep.
  - intros Hmax. set (m := int_max_str_digits lim) in *.
    set (digits := replicate (S m) (ch "1")).
    replace (lit "[" ++ digits ++ lit "," ++ s)
      with ((lit "[" ++ digits ++ lit ",") ++ s) by (by rewrite <- !app_assoc).
    destruct (clean_keeps_prefix (lit "[" ++ digits ++ lit ",") s
                (ch "[") (ch ",")) as [t Ht]; try done.
    { change (lit ",") with [ch ","]. by rewrite !app_assoc, last_snoc. }
    { rewrite !not_elem_of_app. split_and!;
        [apply (bool_decide_unpack _); vm_compute; exact I|
        |apply (bool_decide_unpack _); vm_compute; exact I].
      intros [Hin _]%elem_of_replicate. done. }
    cut (∃ e, json_loads lim ((lit "[" ++ digits ++ lit ",") ++ t) = Raise e
              ∧ e ≠ JSONDecodeError).
    { intros (e & He & Hne). apply (parse_other_error _ _ e); [|done].
      by rewrite Ht. }
    unfold json_loads.
    rewrite bool_decide_eq_false_2 by done.
    change (lit "[") with [ch "["]. change (lit ",") with [ch ","].
    rewrite <- !app_assoc. cbn [app skip_ws drop_while].
    change (is_json_ws (ch "[")) with false. cbn match.
    destruct (recursion_depth lim) as [|depth]; [by exists RecursionError|].
    exists ValueError. split; [|done].
    cbn [scan_once].
    change (ch "[" =? quote)%N with false.
    change (ch "[" =? ch "{")%N with false.
    change (ch "[" =? ch "[")%N with true. cbn match.
    unfold parse_array, digits. cbn [replicate app skip_ws drop_while].
    change (is_json_ws (ch "1")) with false. cbn match.
    change (ch "1" =? ch "]")%N with false. cbn match.
    cbn [length array_loop].
    assert (scan_once lim depth
              (ch "1" :: replicate m (ch "1") ++ ch "," :: t)
            = Raise ValueError) as ->; [|done].
    assert (∀ d r, scan_once lim d (ch "1" :: r) = match_number lim (ch "1" :: r))
      as Hnum by (by intros [|d] r).
    rewrite Hnum. unfold match_number.
    cbn [match_sign]. change (ch "1" =? ch "-")%N with false. cbn match.
    cbn [match_integer]. change (ch "1" =? ch "0")%N with false.
    change (is_digit (ch "1")) with true. cbn match.
    rewrite span_digits_ones by done.
    cbn [match_fraction]. change (ch "," =? ch ".")%N with false.
    cbn match. cbn [match_exponent].
    change ((ch "," =? ch "e") || (ch "," =? ch "E"))%N
      with false. cbn match.
    rewrite bool_decide_eq_true_2; [done|].
    split; [done|]. cbn [length]. rewrite length_replicate. fold m. lia.
Qed.

(** * [json.dumps] and [json.loads] *)

Lemma decode_uXXXX_rest h1 h2 h3 h4 rest :
  decode_uXXXX (h1 :: h2 :: h3 :: h4 :: rest)
  = match decode_uXXXX [h1; h2; h3; h4] with
    | Some (uni, _) => Some (uni, rest)
    | None => None
    end.
Proof.
  unfold decode_uXXXX.
  by destruct (hex_digit h1), (hex_digit h2), (hex_digit h3), (hex_digit h4).
Qed.

(** The escape written for a control character reads back as it. *)
Lemma decode_control_escape c :
  (c < 0x20)%N →
  decode_uXXXX [ch "0"; ch "0"; hex_char (c / 16); hex_char (c mod 16)]
  = Some (c, []).
Proof.
  intros Hc.
  assert (N.to_nat c ∈ seq 0 32) as Hin by (apply elem_of_seq; lia).
  assert (Forall (λ n, let c := N.of_nat n in
             decode_uXXXX [ch "0"; ch "0"; hex_char (c / 16); hex_char (c mod 16)]
             = Some (c, [])) (seq 0 32)) as Hall.
  { apply (bool_decide_unpack _). vm_compute. exact I. }
  rewrite Forall_forall in Hall. apply Hall in Hin. simpl in Hin.
  by rewrite N2Nat.id in Hin.
Qed.

(** One iteration of [scanstring] over the escape of one code point. *)
Lemma scanstring_escape_char c f2 rest chunks :
  length rest ≤ f2 →
  scanstring_loop (S f2) (escape_char c ++ rest) chunks
  = scanstring_loop f2 rest (chunks ++ [c]).
Proof.
  intros Hf. unfold escape_char.
  destruct (N.eqb_spec c quote) as [->|Hq]; [done|].
  destruct (N.eqb_spec c backslash) as [->|Hb]; [done|].
  destruct (N.eqb_spec c 0x0A) as [->|?]; [done|].
  destruct (N.eqb_spec c 0x0D) as [->|?]; [done|].
  destruct (N.eqb_spec c 0x09) as [->|?]; [done|].
  destruct (N.eqb_spec c 0x08) as [->|?]; [done|].
  destruct (N.eqb_spec c 0x0C) as [->|?]; [done|].
  destruct (N.ltb_spec c 0x20) as [Hc|Hc].
  - cbn [app scanstring_loop].
    change (backslash =? quote)%N with false.
    change (backslash =? backslash)%N with true.
    change (ch "u" =? ch "u")%N with true. cbn match.
    rewrite decode_uXXXX_rest, decode_control_escape by done.
    replace (is_high_surrogate c) with false; [done|].
    symmetry. unfold is_high_surrogate. apply andb_false_intro1.
    apply N.leb_gt. lia.
  - cbn [app scanstring_loop].
    destruct (N.eqb_spec c quote); [done|].
    destruct (N.eqb_spec c backslash); [done|].
    destruct (N.leb_spec c 0x1F); [lia|done].
Qed.

(** [scanstring] reads an encoded string back, up to its closing mark. *)
Lemma scanstring_encoded s : ∀ fuel rest chunks,
  length (concat (escape_char <$> s) ++ quote :: rest) ≤ fuel →
  scanstring_loop fuel (concat (escape_char <$> s) ++ quote :: rest) chunks
  = Ok (chunks ++ s, rest).
Proof.
  induction s as [|c s IH]; intros fuel rest chunks Hf.
  - cbn [fmap list_fmap concat app] in *. cbn [length] in Hf.
    destruct fuel as [|fuel]; [lia|]. cbn [scanstring_loop].
    change (quote =? quote)%N with true. cbn match. by rewrite app_nil_r.
  - rewrite fmap_cons in *. cbn [concat] in *. rewrite <- app_assoc in *.
    rewrite length_app in Hf.
    assert (1 ≤ length (escape_char c)) as Hc.
    { unfold escape_char. repeat case_match; cbn [length]; lia. }
    destruct fuel as [|fuel]; [lia|].
    rewrite scanstring_escape_char by lia.
    rewrite IH by lia. by rewrite <- app_assoc.
Qed.

Lemma scan_once_encoded lim depth s rest :
  scan_once lim depth (encode_basestring s ++ rest) = Ok (JStr s, rest).
Proof.
  unfold encode_basestring. rewrite <- app_comm_cons, <- app_assoc.
  change ([quote] ++ rest) with (quote :: rest).
  assert (scanstring (concat (escape_char <$> s) ++ quote :: rest)
          = Ok (s, rest)) as H.
  { unfold scanstring. by rewrite scanstring_encoded. }
  destruct depth; cbn [scan_once];
    change (quote =? quote)%N with true; cbn match; by rewrite H.
Qed.

Lemma skip_ws_newline_indent level c rest :
  is_json_ws c = false →
  skip_ws (newline_indent level ++ c :: rest) = c :: rest.
Proof.
  intros Hc. unfold skip_ws. rewrite drop_while_app_all.
  - cbn [drop_while]. by rewrite Hc.
  - unfold newline_indent. constructor; [done|].
    induction level as [|level IH]; [constructor|].
    cbn [replicate concat]. by repeat constructor.
Qed.

Section dumps_list.
Context (lim : limits) (depth : nat).

(** The loop of the array parser over the rest of a written list. *)
Lemma array_loop_written level others : ∀ fuel first values rest,
  length others < fuel →
  array_loop (scan_once lim depth) fuel
    (encode_basestring first
     ++ concat ((λ kw, lit "," ++ newline_indent (S level) ++ encode_basestring kw)
                  <$> others)
     ++ newline_indent level ++ lit "]" ++ rest) values
  = Ok (JList (values ++ (JStr <$> first :: others)), rest).
Proof.
  induction others as [|kw others IH]; intros fuel first values rest Hf;
    (destruct fuel as [|fuel]; [cbn [length] in Hf; lia|]);
    cbn [array_loop]; rewrite scan_once_encoded.
  - cbn [fmap list_fmap concat app].
    change (lit "]" ++ rest) with (ch "]" :: rest).
    rewrite skip_ws_newline_indent by done.
    change (ch "]" =? ch "]")%N with true. done.
  - rewrite fmap_cons. cbn [concat]. rewrite <- !app_assoc.
    change (lit "," ++ ?x) with (ch "," :: x).
    cbn [skip_ws drop_while]. change (is_json_ws (ch ",")) with false.
    cbn match. change (ch "," =? ch "]")%N with false.
    change (ch "," =? ch ",")%N with true. cbn match.
    unfold encode_basestring at 1. rewrite <- app_comm_cons.
    rewrite skip_ws_newline_indent by done.
    rewrite app_comm_cons.
    change (quote :: (concat (escape_char <$> kw) ++ [quote]))
      with (encode_basestring kw).
    rewrite IH by (cbn [length] in Hf; lia).
    by rewrite <- app_assoc.
Qed.

Lemma length_written_others level (others : list str) :
  length others
  ≤ length (concat ((λ kw, lit "," ++ newline_indent (S level)
                              ++ encode_basestring kw) <$> others)).
Proof.
  induction others as [|kw others IH]; [done|].
  rewrite fmap_cons. cbn [concat length]. rewrite !length_app.
  change (length (lit ",")) with 1. lia.
Qed.

(** [scan_once], allowed one more level, reads a written list back. *)
Lemma scan_once_written_list level l rest :
  scan_once lim (S depth) (dumps_list level l ++ rest)
  = Ok (JList (JStr <$> l), rest).
Proof.
  destruct l as [|first others].
  - done.
  - unfold dumps_list. rewrite <- !app_assoc.
    change (lit "[" ++ ?x) with (ch "[" :: x). cbn [scan_once].
    change (ch "[" =? quote)%N with false. change (ch "[" =? ch "{")%N with false.
    change (ch "[" =? ch "[")%N with true. cbn match.
    unfold parse_array, encode_basestring at 1. rewrite <- app_comm_cons.
    rewrite skip_ws_newline_indent by done.
    change (quote =? ch "]")%N with false. cbn match.
    rewrite app_comm_cons.
    change (quote :: (concat (escape_char <$> first) ++ [quote]))
      with (encode_basestring first).
    apply (array_loop_written level others _ first []).
    rewrite !length_app. pose proof (length_written_others level others).
    assert (1 ≤ length (encode_basestring first))
      by (unfold encode_basestring; cbn [length]; lia).
    lia.
Qed.
End dumps_list.

Lemma skip_ws_dumps_list level l rest :
  skip_ws (dumps_list level l ++ rest) = dumps_list level l ++ rest.
Proof. by destruct l. Qed.

(** One iteration of the object parser over a written key and its list. *)
Lemma object_loop_written_pair lim depth fuel key l tail pairs :
  object_loop (scan_once lim (S depth)) (S fuel)
    (encode_basestring key ++ lit ": " ++ dumps_list 1 l ++ tail) pairs
  = match skip_ws tail with
    | c :: rest =>
        if (c =? ch "}")%N
        then Ok (JDict (pairs ++ [(key, JList (JStr <$> l))]), rest)
        else if (c =? ch ",")%N
        then object_loop (scan_once lim (S depth)) fuel (skip_ws rest)
               (pairs ++ [(key, JList (JStr <$> l))])
        else Raise JSONDecodeError
    | [] => Raise JSONDecodeError
    end.
Proof.
  unfold encode_basestring at 1. rewrite <- app_comm_cons, <- app_assoc.
  cbn [object_loop]. change (quote =? quote)%N with true. cbn match.
  change ([quote] ++ ?x) with (quote :: x).
  unfold scanstring. rewrite scanstring_encoded by done.
  change (lit ": " ++ ?x) with (ch ":" :: ch " " :: x).
  cbn [app skip_ws drop_while]. change (is_json_ws (ch ":")) with false.
  cbn match. change (ch ":" =? ch ":")%N with true.
  change (skip_ws (ch " " :: dumps_list 1 l ++ tail))
    with (skip_ws (dumps_list 1 l ++ tail)).
  by rewrite skip_ws_dumps_list, scan_once_written_list.
Qed.

Lemma scan_once_object lim depth rest :
  scan_once lim (S depth) (ch "{" :: rest)
  = parse_object (scan_once lim depth) rest.
Proof. done. Qed.

(** X8: the text [main] writes is read back by [json.loads], allowed two
    levels of nesting, as the object it was made from: the two keys in
    their order, each with its list of strings, whatever code points the
    strings hold. *)
Theorem loads_dumps_result (lim : limits) (all_daw all_arranger : list str) :
  2 ≤ recursion_depth lim →
  json_loads lim (dumps_result all_daw all_arranger)
  = Ok (JDict [(lit "daw", JList (JStr <$> all_daw));
               (lit "arranger", JList (JStr <$> all_arranger))]).
Proof.
  intros Hdepth.
  destruct (recursion_depth lim) as [|[|depth]] eqn:Hlim; [lia..|].
  unfold json_loads. rewrite Hlim.
  unfold dumps_result. change (lit "{" ++ ?x) with (ch "{" :: x).
  rewrite bool_decide_eq_false_2 by done.
  cbn [skip_ws drop_while]. change (is_json_ws (ch "{")) with false.
  cbn match. rewrite scan_once_object. unfold parse_object.
  unfold encode_basestring at 1. rewrite <- app_comm_cons.
  rewrite skip_ws_newline_indent by done.
  change (quote =? ch "}")%N with false. cbn match.
  rewrite app_comm_cons.
  change (quote :: (concat (escape_char <$> lit "daw") ++ [quote]))
    with (encode_basestring (lit "daw")).
  set (tail2 := newline_indent 0 ++ lit "}").
  set (tail1 := lit "," ++ newline_indent 1 ++ encode_basestring (lit "arranger")
                ++ lit ": " ++ dumps_list 1 all_arranger ++ tail2).
  assert (∃ fuel, length (encode_basestring (lit "daw") ++ lit ": "
                          ++ dumps_list 1 all_daw ++ tail1) = S (S fuel))
    as [fuel ->].
  { rewrite length_app. change (length (encode_basestring (lit "daw"))) with 5.
    eexists. reflexivity. }
  rewrite object_loop_written_pair.
  unfold tail1 at 1. change (lit "," ++ ?x) with (ch "," :: x).
  cbn [skip_ws drop_while]. change (is_json_ws (ch ",")) with false.
  cbn match. change (ch "," =? ch "}")%N with false.
  change (ch "," =? ch ",")%N with true. cbn match.
  unfold encode_basestring at 1. rewrite <- app_comm_cons.
  rewrite skip_ws_newline_indent by done.
  rewrite app_comm_cons.
  change (quote :: (concat (escape_char <$> lit "arranger") ++ [quote]))
    with (encode_basestring (lit "arranger")).
  rewrite object_loop_written_pair.
  unfold tail2. change (lit "}") with [ch "}"].
  rewrite skip_ws_newline_indent by done.
  change (ch "}" =? ch "}")%N with true. done.
Qed.

Lemma loads_dumps_result_witness :
  json_loads default_limits
    (dumps_result [litq "say 'hi'"; [0x09; 0x1F600; 0x5C]%N] [])
  = Ok (JDict [(lit "daw", JList (JStr <$> [litq "say 'hi'"; [0x09; 0x1F600; 0x5C]%N]));
               (lit "arranger", JList (JStr <$> []))]).
Proof.
  apply loads_dumps_result. vm_compute. lia.
Defined.

(** * [load_env_file] *)

Lemma parents_rev_lookup names_rev i :
  i < length names_rev →
  parents_rev names_rev !! i = Some (reverse (drop (S i) names_rev)).
Proof.
  revert i. induction names_rev as [|name above IH]; intros i Hi;
    cbn [length] in Hi; [lia|].
  destruct i as [|i]; cbn [parents_rev lookup list_lookup drop].
  - by rewrite drop_0.
  - apply IH. lia.
Qed.

Lemma parents_rev_length names_rev :
  length (parents_rev names_rev) = length names_rev.
Proof. induction names_rev as [|? ? IH]; [done|]. cbn. by rewrite IH. Qed.

(** The directories searched are the current one and those above it, each
    found at the index that tells how many names it is shorter. *)
Lemma candidates_lookup (dir : list str) i :
  i ≤ length dir →
  (dir :: parents dir) !! i = Some (take (length dir - i) dir).
Proof.
  intros Hi. destruct i as [|i].
  - cbn. by rewrite Nat.sub_0_r, firstn_all.
  - cbn [lookup list_lookup]. unfold parents.
    rewrite parents_rev_lookup by (rewrite length_reverse; lia).
    rewrite reverse_drop, reverse_involutive, length_reverse. done.
Qed.

Lemma candidates_lookup_inv (dir d : list str) i :
  (dir :: parents dir) !! i = Some d →
  i ≤ length dir ∧ d = take (length dir - i) dir.
Proof.
  intros H. assert (i ≤ length dir) as Hi.
  { apply lookup_lt_Some in H. cbn [length] in H. unfold parents in H.
    rewrite parents_rev_length, length_reverse in H. lia. }
  split; [done|]. rewrite candidates_lookup in H by done. congruence.
Qed.

(** X10: [load_env_file] loads the [.env] file of the nearest directory
    that has one, starting at the current directory and going up — every
    other directory above the current one that has a [.env] file lies above
    the one chosen; and it loads none exactly when no directory from the
    current one up to the root has one. *)
Theorem load_env_file_nearest (has_env : list str → bool) (current_dir : list str) :
  match load_env_file has_env current_dir with
  | Some dir =>
      dir `prefix_of` current_dir ∧ has_env dir = true
      ∧ ∀ dir', dir' `prefix_of` current_dir → has_env dir' = true →
                dir' `prefix_of` dir
  | None => ∀ dir', dir' `prefix_of` current_dir → has_env dir' = false
  end.
Proof.
  unfold load_env_file.
  destruct (list_find _ _) as [[i dir]|] eqn:E; cbn.
  - apply list_find_Some in E as (Hi & Henv & Hfirst).
    apply candidates_lookup_inv in Hi as [Hi ->].
    split_and!; [apply prefix_take|done|].
    intros dir' [k ->] Henv'.
    rewrite length_app in *.
    destruct (decide (length k < i)) as [Hlt|Hge].
    + exfalso. apply (Hfirst (length k) dir'); [|done|done].
      rewrite candidates_lookup by (rewrite length_app; lia).
      rewrite length_app. replace (length dir' + length k - length k)
        with (length dir') by lia.
      by rewrite take_app_length.
    + exists (take (length k - i) k).
      rewrite take_app_ge by lia. f_equal. f_equal. lia.
  - intros dir' [k ->] . apply not_true_is_false. intros Henv'.
    rewrite list_find_None, Forall_forall in E.
    apply (E dir'); [|done].
    apply list_elem_of_lookup. exists (length k).
    rewrite candidates_lookup by (rewrite length_app; lia).
    rewrite length_app. replace (length dir' + length k - length k)
      with (length dir') by lia.
    by rewrite take_app_length.
Qed.

(** * [main] *)



(** * More on the parser: whitespace and the fallback *)

(** X11: whitespace before and after the payload has no effect on the
    result. *)
Theorem parse_surrounding_whitespace (lim : limits) (before payload after : str) :
  Forall (λ c, isspace c = true) before →
  Forall (λ c, isspace c = true) after →
  parse lim (before ++ payload ++ after) = parse lim payload.
Proof.
  intros Hb Ha. apply parse_clean_eq. unfold clean.
  by rewrite strip_surround.
Qed.

Lemma parse_surrounding_whitespace_witness :
  parse default_limits ([0x0A; 0x20]%N ++ litq "['Reverb']" ++ [0x3000; 0x09]%N)
  = parse default_limits (litq "['Reverb']").
Proof.
  apply parse_surrounding_whitespace; by repeat constructor.
Defined.

(** What the scan for quoted substrings returns was there: with [inside]
    holding the text collected since an opening mark, each result either
    completes that text up to the next mark, or stands between two marks of
    the remaining input; it is not empty and holds no mark. *)
Lemma findall_quoted_from_sound s : ∀ inside body,
  (∀ acc, inside = Some acc → quote ∉ acc) →
  body ∈ findall_quoted_from inside s →
  body ≠ [] ∧ (quote ∉ body)
  ∧ ((∃ acc rest after,
        inside = Some acc ∧ body = acc ++ rest ∧ s = rest ++ quote :: after)
     ∨ (∃ before after, s = before ++ quote :: body ++ quote :: after)).
Proof.
  induction s as [|c s IH]; intros inside body Hacc; cbn [findall_quoted_from].
  { by intros ?%elem_of_nil. }
  destruct inside as [acc|].
  - specialize (Hacc acc eq_refl) as Hq.
    destruct (N.eqb_spec c quote) as [->|Hc].
    + destruct acc as [|a acc].
      * intros H. apply IH in H as (Hne & Hnq & H); [|by intros ? [= <-]; apply not_elem_of_nil].
        split_and!; [done..|]. right.
        destruct H as [(acc' & rest & after & [= <-] & -> & ->)
                      |(before & after & ->)].
        -- by exists [], after.
        -- by exists (quote :: before), after.
      * intros [->|H]%elem_of_cons.
        -- split_and!; [done..|]. left. exists (a :: acc), [], s.
           by rewrite app_nil_r.
        -- apply IH in H as (Hne & Hnq & H); [|done].
           split_and!; [done..|]. right.
           destruct H as [(? & ? & ? & [=] & _)|(before & after & ->)].
           by exists (quote :: before), after.
    + intros H. apply IH in H as (Hne & Hnq & H).
      2: { intros ? [= <-]. rewrite not_elem_of_app, not_elem_of_cons.
           split_and!; [done|congruence|apply not_elem_of_nil]. }
      split_and!; [done..|].
      destruct H as [(acc' & rest & after & [= <-] & -> & ->)
                    |(before & after & ->)].
      * left. exists acc, (c :: rest), after. by rewrite <- app_assoc.
      * right. by exists (c :: before), after.
  - intros H. apply IH in H as (Hne & Hnq & H).
    2: { destruct (c =? quote)%N; intros ? [= <-]. apply not_elem_of_nil. }
    split_and!; [done..|]. right.
    destruct H as [(acc' & rest & after & Hin & -> & ->)|(before & after & ->)].
    + destruct (N.eqb_spec c quote) as [->|Hc]; [|done].
      injection Hin as <-. by exists [], after.
    + by exists (c :: before), after.
Qed.

(** X12: the fallback invents nothing. When [json.loads] raises
    [JSONDecodeError], every keyword returned is the lowercased, trimmed form
    of a text that stands between two quotation marks in the stripped
    payload, is not empty and holds no quotation mark. *)
Theorem parse_fallback_sound (lim : limits) (payload kw : str) (out : list str) :
  json_loads lim (clean payload) = Raise JSONDecodeError →
  parse lim payload = Ok out → kw ∈ out →
  ∃ body,
    kw = normalize body ∧ body ≠ [] ∧ (quote ∉ body)
    ∧ occurs_in (quote :: body ++ [quote]) (clean payload).
Proof.
  intros Herr Hout Hkw. rewrite (parse_decode_error _ _ Herr) in Hout.
  injection Hout as <-. unfold fallback_extract in Hkw.
  apply list_elem_of_fmap in Hkw as (body & -> & [_ Hin]%list_elem_of_filter).
  apply findall_quoted_from_sound in Hin as (Hne & Hnq & H); [|done].
  exists body. split_and!; [done..|].
  destruct H as [(? & ? & ? & [=] & _)|(before & after & ->)].
  exists before, after. by rewrite <- app_comm_cons, <- app_assoc.
Qed.

Lemma parse_fallback_sound_witness :
  ∃ body,
    lit "verb" = normalize body ∧ body ≠ [] ∧ (quote ∉ body)
    ∧ occurs_in (quote :: body ++ [quote])
        (clean (litq "Sure! Here: 'delay' and ' Verb' are related.")).
Proof.
  apply (parse_fallback_sound default_limits
           (litq "Sure! Here: 'delay' and ' Verb' are related.")
           (lit "verb") [lit "delay"; lit "verb"]).
  - by vm_compute.
  - by vm_compute.
  - repeat constructor.
Defined.

(** * Instances *)

Lemma parse_decoder_limits_witness :
  parse default_limits
    (lit "[" ++ replicate (S (int_max_str_digits default_limits)) (ch "1")
     ++ lit "," ++ litq " 'reverb']") = Ok [].
Proof.
  apply (proj2 (parse_decoder_limits default_limits (litq " 'reverb']"))).
  done.
Defined.


Lemma load_env_file_nearest_witness :
  load_env_file (λ dir, bool_decide (length dir ≤ 2))
    [lit "home"; lit "user"; lit "magda"; lit "scripts"]
  = Some [lit "home"; lit "user"].
Proof.
  pose proof (load_env_file_nearest (λ dir, bool_decide (length dir ≤ 2))
                [lit "home"; lit "user"; lit "magda"; lit "scripts"]) as H.
  destruct (load_env_file _ _) as [dir|] eqn:E.
  - destruct H as (Hpre & Henv & Hnear).
    f_equal. apply bool_decide_eq_true in Henv.
    assert ([lit "home"; lit "user"] `prefix_of` dir) as [k Hk].
    { apply Hnear; [by exists [lit "magda"; lit "scripts"]|done]. }
    rewrite Hk in Henv. rewrite length_app in Henv. cbn [length] in Henv.
    destruct k; [by rewrite app_nil_r in Hk|cbn [length] in Henv; lia].
  - specialize (H [] (prefix_nil _)). done.
Defined.

(** * The parser and the merge together *)

(** X13: nothing the parser returns is lost in the merge: every keyword of
    the parsed list is an entry of the merged list, whatever the base
    list. *)
Theorem merge_keeps_parsed (lim : limits) (payload : str) (base out : list str)
    (kw : str) :
  parse lim payload = Ok out → kw ∈ out → kw ∈ merge base out.
Proof.
  intros Hout%parse_output Hkw. rewrite Forall_forall in Hout.
  destruct (Hout kw Hkw) as [Hn Hlen].
  unfold merge. apply deduplicate_elem_of. split.
  - intros ->. cbn [length] in Hlen. lia.
  - exists kw. split; [apply elem_of_app; by right | by rewrite Hn].
Qed.

Lemma merge_keeps_parsed_witness :
  lit "echo" ∈ merge [lit "reverb"] [lit "reverb"; lit "echo"].
Proof.
  apply (merge_keeps_parsed default_limits (litq "['Reverb', 'x', ' ECHO ']")
           [lit "reverb"] [lit "reverb"; lit "echo"] (lit "echo")).
  - by vm_compute.
  - repeat constructor.
Defined.
